(** * heyitsarpit.dev: the local-storage helpers, the scroll percent and the
      article index, verified over a shallow embedding.

    The definitions come first:
    - [JSON]: the host's [JSON.stringify] and [JSON.parse] on a universe of
      JavaScript values;
    - [LocalStorage]: the browser's storage object, the completions of a
      call, and the helpers [setLocalStorage] and [getLocalStorage] on the
      values of that universe;
    - [AnyArgument]: the same helpers on every argument, the values on
      which [JSON.stringify] returns [undefined] or throws included;
    - [Scroll], [Content]: the scroll percent, the heading slug and the
      article index.
    The facts follow, module by module: [JSONFacts], [StorageFacts],
    [ScrollFacts], [ContentFacts], [HelperFacts], [AnyArgumentFacts]. *)

From Stdlib Require Import ZArith NArith QArith Ascii String List Bool Lia.
From Stdlib Require Import DecimalString DecimalPos DecimalN DecimalFacts.
From Stdlib Require Import Permutation Sorted.
From stdpp Require Import base option list gmap strings.

Local Open Scope string_scope.
#[local] Arguments String.append !s1 s2 : simpl nomatch.

(** ** Characters that cannot be written inside a literal *)

Definition dquote : ascii := "034"%char.
Definition backslash : ascii := "092"%char.

(** [jsontext] writes a JSON text with ['] standing for the double quote,
    so that [jsontext "{'a':1}"] is the text [{"a":1}]. *)
Fixpoint jsontext (s : string) : string :=
  match s with
  | EmptyString => EmptyString
  | String c r => String (if Ascii.eqb c "'" then dquote else c) (jsontext r)
  end.

Module JSON.

(** ** JavaScript values

    The values the helpers are called with. A [JSNumber z] is the Number
    with the integer value [z]; it is a Number of JavaScript when [z] is a
    safe integer. A [JSString] is a sequence of code units below 256. A
    [JSObject] lists the own enumerable properties in enumeration order. *)
Unset Elimination Schemes.
Inductive JSValue : Type :=
| JSUndefined
| JSNull
| JSBoolean (b : bool)
| JSNumber (z : Z)
| JSString (s : string)
| JSArray (elements : list JSValue)
| JSObject (properties : list (string * JSValue)).
Set Elimination Schemes.

(** The induction principle that reaches the elements of an array and the
    values of the properties of an object. *)
Fixpoint JSValue_ind (P : JSValue -> Prop)
    (Hundef : P JSUndefined) (Hnull : P JSNull)
    (Hbool : forall b, P (JSBoolean b)) (Hnum : forall z, P (JSNumber z))
    (Hstr : forall s, P (JSString s))
    (Harr : forall l, Forall P l -> P (JSArray l))
    (Hobj : forall m, Forall (fun kv => P (snd kv)) m -> P (JSObject m))
    (v : JSValue) {struct v} : P v :=
  let rec := JSValue_ind P Hundef Hnull Hbool Hnum Hstr Harr Hobj in
  match v with
  | JSUndefined => Hundef
  | JSNull => Hnull
  | JSBoolean b => Hbool b
  | JSNumber z => Hnum z
  | JSString s => Hstr s
  | JSArray l =>
      Harr l ((fix go (l : list JSValue) : Forall P l :=
                 match l with
                 | [] => @Stdlib.Lists.List.Forall_nil _ P
                 | e :: l' => @Stdlib.Lists.List.Forall_cons _ P e l' (rec e) (go l')
                 end) l)
  | JSObject m =>
      Hobj m ((fix go (m : list (string * JSValue)) : Forall (fun kv => P (snd kv)) m :=
                 match m with
                 | [] => @Stdlib.Lists.List.Forall_nil _ (fun kv => P (snd kv))
                 | kv :: m' => @Stdlib.Lists.List.Forall_cons _ (fun kv => P (snd kv)) kv m' (rec (snd kv)) (go m')
                 end) m)
  end.

(** *** Serialization: [JSON.stringify] *)

Definition hex_digit (n : N) : ascii :=
  if (n <? 10)%N then ascii_of_N (48 + n) else ascii_of_N (87 + n).

(** QuoteJSONString, one code unit: the quote and the backslash are
    escaped, the control characters are written with their short escape or
    as [\u00xx]. *)
Definition escape (c : ascii) : string :=
  let n := N_of_ascii c in
  if (n =? 34)%N then String backslash (String dquote EmptyString)
  else if (n =? 92)%N then String backslash (String backslash EmptyString)
  else if (n =? 8)%N then String backslash "b"
  else if (n =? 9)%N then String backslash "t"
  else if (n =? 10)%N then String backslash "n"
  else if (n =? 12)%N then String backslash "f"
  else if (n =? 13)%N then String backslash "r"
  else if (n <? 32)%N then
    String backslash
      (String "u" (String "0" (String "0"
        (String (hex_digit (n / 16)) (String (hex_digit (n mod 16)) EmptyString)))))
  else String c EmptyString.

Fixpoint escape_all (s : string) : string :=
  match s with
  | EmptyString => EmptyString
  | String c r => escape c +:+ escape_all r
  end.

Definition QuoteJSONString (s : string) : string :=
  String dquote (escape_all s +:+ String dquote EmptyString).

(** Number::toString on an integer: the decimal digits, with a sign. *)
Definition Number_toString (z : Z) : string :=
  match z with
  | Z0 => "0"
  | Zpos p => NilZero.string_of_uint (N.to_uint (Npos p))
  | Zneg p => String "-" (NilZero.string_of_uint (N.to_uint (Npos p)))
  end.

Fixpoint join_comma (l : list string) : string :=
  match l with
  | [] => EmptyString
  | [t] => t
  | t :: l' => t +:+ String "," (join_comma l')
  end.

(** [JSON.stringify(v)]: [None] is the result [undefined]. In an array an
    element without a JSON text is written [null]; in an object a property
    without a JSON text is left out. *)
Fixpoint JSON_stringify (v : JSValue) : option string :=
  match v with
  | JSUndefined => None
  | JSNull => Some "null"
  | JSBoolean b => Some (if b then "true" else "false")
  | JSNumber z => Some (Number_toString z)
  | JSString s => Some (QuoteJSONString s)
  | JSArray l =>
      Some (String "[" (join_comma
              (List.map (fun e => match JSON_stringify e with
                                  | Some t => t
                                  | None => "null"
                                  end) l) +:+ "]"))
  | JSObject m =>
      Some (String "{" (join_comma
              (List.flat_map (fun kv => match JSON_stringify (snd kv) with
                                        | Some t => [QuoteJSONString (fst kv) +:+ String ":" t]
                                        | None => []
                                        end) m) +:+ "}"))
  end.

(** *** Parsing: [JSON.parse]

    The parser follows the JSON grammar on every text. What it reads is a
    value of the universe, or [None]: a value the universe does not
    describe (a number written with a fraction or an exponent, a number
    that is not a safe integer or is the negative zero, a string with a
    [\u] escape of a code unit above 255, an object with a repeated key or
    with a key made of digits only, which JavaScript enumerates first). *)
Inductive parsed (A : Type) : Type :=
| Accept (a : A) (rest : string)
| Reject
| OutOfFuel.
Arguments Accept {A} a rest.
Arguments Reject {A}.
Arguments OutOfFuel {A}.

Definition parsed_bind {A B} (p : parsed A) (k : A -> string -> parsed B) : parsed B :=
  match p with
  | Accept a rest => k a rest
  | Reject => Reject
  | OutOfFuel => OutOfFuel
  end.

Definition opt_cons {A} (a : option A) (l : option (list A)) : option (list A) :=
  match a, l with
  | Some a, Some l => Some (a :: l)
  | _, _ => None
  end.

Definition opt_pair {A B} (a : option A) (b : option B) : option (A * B) :=
  match a, b with
  | Some a, Some b => Some (a, b)
  | _, _ => None
  end.

Definition is_ws (c : ascii) : bool :=
  let n := N_of_ascii c in
  ((n =? 32) || (n =? 9) || (n =? 10) || (n =? 13))%N.

Fixpoint skip_ws (s : string) : string :=
  match s with
  | EmptyString => EmptyString
  | String c r => if is_ws c then skip_ws r else s
  end.

Definition is_digit (c : ascii) : bool :=
  let n := N_of_ascii c in ((48 <=? n) && (n <=? 57))%N.

Fixpoint span_digits (s : string) : string * string :=
  match s with
  | EmptyString => (EmptyString, EmptyString)
  | String c r =>
      if is_digit c then let (ds, rest) := span_digits r in (String c ds, rest)
      else (EmptyString, s)
  end.

Definition hex_value (c : ascii) : option N :=
  let n := N_of_ascii c in
  if ((48 <=? n) && (n <=? 57))%N then Some (n - 48)%N
  else if ((97 <=? n) && (n <=? 102))%N then Some (n - 87)%N
  else if ((65 <=? n) && (n <=? 70))%N then Some (n - 55)%N
  else None.

Definition hex4 (h1 h2 h3 h4 : ascii) : option N :=
  match hex_value h1, hex_value h2, hex_value h3, hex_value h4 with
  | Some a, Some b, Some c, Some d => Some (((a * 16 + b) * 16 + c) * 16 + d)%N
  | _, _, _, _ => None
  end.

(** The character a one-letter escape stands for. *)
Definition unescape (e : ascii) : option ascii :=
  let n := N_of_ascii e in
  if (n =? 34)%N then Some dquote
  else if (n =? 92)%N then Some backslash
  else if (n =? 47)%N then Some "/"%char
  else if (n =? 98)%N then Some "008"%char
  else if (n =? 116)%N then Some "009"%char
  else if (n =? 110)%N then Some "010"%char
  else if (n =? 102)%N then Some "012"%char
  else if (n =? 114)%N then Some "013"%char
  else None.

(** The code unit of a [\u] escape, when it is below 256. *)
Definition code_unit (n : N) : option ascii :=
  if (n <? 256)%N then Some (ascii_of_N n) else None.

Definition cons_char (c : option ascii) (p : parsed (option string))
  : parsed (option string) :=
  parsed_bind p (fun s rest =>
    Accept (match c, s with
            | Some c, Some s => Some (String c s)
            | _, _ => None
            end) rest).

(** The characters of a string literal, after its opening quote. *)
Fixpoint parse_chars (s : string) : parsed (option string) :=
  match s with
  | EmptyString => Reject
  | String c r =>
      if Ascii.eqb c dquote then Accept (Some EmptyString) r
      else if Ascii.eqb c backslash then
        match r with
        | EmptyString => Reject
        | String e r1 =>
            if Ascii.eqb e "u" then
              match r1 with
              | String h1 (String h2 (String h3 (String h4 r2))) =>
                  match hex4 h1 h2 h3 h4 with
                  | None => Reject
                  | Some n => cons_char (code_unit n) (parse_chars r2)
                  end
              | _ => Reject
              end
            else
              match unescape e with
              | Some c' => cons_char (Some c') (parse_chars r1)
              | None => Reject
              end
        end
      else if (N_of_ascii c <? 32)%N then Reject
      else cons_char (Some c) (parse_chars r)
  end.

Definition max_safe_integer : N := 9007199254740991.

(** The fraction of a number, when there is one: a point and at least one
    digit. [None] rejects the text. *)
Definition parse_fraction (s : string) : option (bool * string) :=
  match s with
  | String c r =>
      if Ascii.eqb c "." then
        let (fs, rest) := span_digits r in
        match fs with
        | EmptyString => None
        | String _ _ => Some (true, rest)
        end
      else Some (false, s)
  | EmptyString => Some (false, s)
  end.

(** The exponent of a number, when there is one: [e] or [E], a sign or
    none, and at least one digit. *)
Definition parse_exponent (s : string) : option (bool * string) :=
  match s with
  | String c r =>
      if Ascii.eqb c "e" || Ascii.eqb c "E" then
        let r' :=
          match r with
          | String sign r1 =>
              if Ascii.eqb sign "+" || Ascii.eqb sign "-" then r1 else r
          | EmptyString => r
          end in
        let (es, rest) := span_digits r' in
        match es with
        | EmptyString => None
        | String _ _ => Some (true, rest)
        end
      else Some (false, s)
  | EmptyString => Some (false, s)
  end.

(** The Number that the digits [ds] and the sign denote, when it is a safe
    integer and not the negative zero. *)
Definition integer_value (negative : bool) (ds : string) : option JSValue :=
  match NilZero.uint_of_string ds with
  | None => None
  | Some u =>
      let n := N.of_uint u in
      if (max_safe_integer <? n)%N then None
      else if negative then
        if (n =? 0)%N then None else Some (JSNumber (- Z.of_N n))
      else Some (JSNumber (Z.of_N n))
  end.

(** A number, after its sign: the digits (a lone 0, or digits that do not
    start with 0), then a fraction or none, then an exponent or none. *)
Definition parse_digits (negative : bool) (s : string) : parsed (option JSValue) :=
  let (ds, rest) := span_digits s in
  match ds with
  | EmptyString => Reject
  | String d ds' =>
      if Ascii.eqb d "0" && negb (String.eqb ds' EmptyString) then Reject
      else
        match parse_fraction rest with
        | None => Reject
        | Some (fraction, rest1) =>
            match parse_exponent rest1 with
            | None => Reject
            | Some (exponent, rest2) =>
                Accept (if fraction || exponent then None
                        else integer_value negative ds) rest2
            end
        end
  end.

Fixpoint strip_prefix (p s : string) : option string :=
  match p, s with
  | EmptyString, _ => Some s
  | String a p', String b s' => if Ascii.eqb a b then strip_prefix p' s' else None
  | String _ _, EmptyString => None
  end.

Definition parse_literal (s : string) : parsed (option JSValue) :=
  match strip_prefix "null" s with
  | Some rest => Accept (Some JSNull) rest
  | None =>
      match strip_prefix "true" s with
      | Some rest => Accept (Some (JSBoolean true)) rest
      | None =>
          match strip_prefix "false" s with
          | Some rest => Accept (Some (JSBoolean false)) rest
          | None => Reject
          end
      end
  end.

Fixpoint all_digits (s : string) : bool :=
  match s with
  | EmptyString => true
  | String c r => is_digit c && all_digits r
  end.

(** A key that JavaScript may enumerate out of insertion order. *)
Definition index_like (k : string) : bool :=
  negb (String.eqb k EmptyString) && all_digits k.

Fixpoint distinct (ks : list string) : bool :=
  match ks with
  | [] => true
  | k :: ks' => negb (existsb (String.eqb k) ks') && distinct ks'
  end.

Definition plain_keys (ks : list string) : bool :=
  distinct ks && forallb (fun k => negb (index_like k)) ks.

Definition mk_array (l : option (list JSValue)) (rest : string)
  : parsed (option JSValue) :=
  Accept (option_map JSArray l) rest.

Definition mk_object (m : option (list (string * JSValue))) (rest : string)
  : parsed (option JSValue) :=
  Accept (match m with
          | Some m => if plain_keys (List.map fst m) then Some (JSObject m) else None
          | None => None
          end) rest.

Definition mk_string (t : option string) (rest : string) : parsed (option JSValue) :=
  Accept (option_map JSString t) rest.

(** The value at the head of [s]. Each call spends one unit of [fuel];
    [OutOfFuel] tells that the fuel ran out. *)
Fixpoint parse_value (fuel : nat) (s : string) : parsed (option JSValue) :=
  match fuel with
  | O => OutOfFuel
  | S fuel =>
      match skip_ws s with
      | EmptyString => Reject
      | String c r =>
          if Ascii.eqb c "[" then
            match skip_ws r with
            | String c' r' =>
                if Ascii.eqb c' "]" then Accept (Some (JSArray [])) r'
                else parsed_bind (parse_elements fuel r) mk_array
            | EmptyString => Reject
            end
          else if Ascii.eqb c "{" then
            match skip_ws r with
            | String c' r' =>
                if Ascii.eqb c' "}" then Accept (Some (JSObject [])) r'
                else parsed_bind (parse_members fuel r) mk_object
            | EmptyString => Reject
            end
          else if Ascii.eqb c dquote then parsed_bind (parse_chars r) mk_string
          else if Ascii.eqb c "-" then parse_digits true r
          else if is_digit c then parse_digits false (String c r)
          else parse_literal (String c r)
      end
  end
with parse_elements (fuel : nat) (s : string) : parsed (option (list JSValue)) :=
  match fuel with
  | O => OutOfFuel
  | S fuel =>
      parsed_bind (parse_value fuel s) (fun v r =>
        match skip_ws r with
        | String c r' =>
            if Ascii.eqb c "," then
              parsed_bind (parse_elements fuel r')
                (fun l rest => Accept (opt_cons v l) rest)
            else if Ascii.eqb c "]" then Accept (opt_cons v (Some [])) r'
            else Reject
        | EmptyString => Reject
        end)
  end
with parse_members (fuel : nat) (s : string)
  : parsed (option (list (string * JSValue))) :=
  match fuel with
  | O => OutOfFuel
  | S fuel =>
      match skip_ws s with
      | String q r =>
          if Ascii.eqb q dquote then
            parsed_bind (parse_chars r) (fun k r1 =>
              match skip_ws r1 with
              | String c r2 =>
                  if Ascii.eqb c ":" then
                    parsed_bind (parse_value fuel r2) (fun v r3 =>
                      match skip_ws r3 with
                      | String c' r4 =>
                          if Ascii.eqb c' "," then
                            parsed_bind (parse_members fuel r4)
                              (fun m rest => Accept (opt_cons (opt_pair k v) m) rest)
                          else if Ascii.eqb c' "}" then
                            Accept (opt_cons (opt_pair k v) (Some [])) r4
                          else Reject
                      | EmptyString => Reject
                      end)
                  else Reject
              | EmptyString => Reject
              end)
          else Reject
      | EmptyString => Reject
      end
  end.

(** What a call that reads a value gives back: a value of the universe,
    or a value the universe does not describe. *)
Inductive Read : Type :=
| Known (v : JSValue)
| Beyond.

(** The two results of [JSON.parse(text)]. *)
Inductive ParseResult : Type :=
| Returns (r : Read)
| ThrowsSyntaxError.

(** The fuel that reading any text takes (see [JSONFacts.enough_fuel]). *)
Definition fuel_for (text : string) : nat := 2 * String.length text + 2.

(** [JSON.parse(text)]: the value at the head of the text, with nothing
    but white space after it. The case [OutOfFuel] does not occur. *)
Definition JSON_parse (text : string) : ParseResult :=
  match parse_value (fuel_for text) text with
  | Accept v rest =>
      match skip_ws rest with
      | EmptyString =>
          Returns (match v with Some v => Known v | None => Beyond end)
      | String _ _ => ThrowsSyntaxError
      end
  | Reject | OutOfFuel => ThrowsSyntaxError
  end.

(** What a unit of fuel buys: a call that accepts consumes a character,
    and a call with twice the length of its text in fuel does not run
    out. *)
Definition fuel_spec (fuel : nat) : Prop :=
  (forall s,
     (2 * String.length s + 1 <= fuel -> parse_value fuel s <> OutOfFuel) /\
     (forall v rest, parse_value fuel s = Accept v rest ->
        String.length rest < String.length s)) /\
  (forall s,
     (2 * String.length s + 2 <= fuel -> parse_elements fuel s <> OutOfFuel) /\
     (forall l rest, parse_elements fuel s = Accept l rest ->
        String.length rest < String.length s)) /\
  (forall s,
     (2 * String.length s + 2 <= fuel -> parse_members fuel s <> OutOfFuel) /\
     (forall m rest, parse_members fuel s = Accept m rest ->
        String.length rest < String.length s)).

(** The text after the digits of a number starts a fraction or an
    exponent. *)
Definition starts_fraction (s : string) : bool :=
  match s with
  | String c _ => Ascii.eqb c "." || Ascii.eqb c "e" || Ascii.eqb c "E"
  | EmptyString => false
  end.

(** *** The values that survive a round trip

    [serializable v]: [v] has no [undefined] inside, its numbers are safe
    integers, and the keys of its objects are distinct and none is made of
    digits only. *)
Fixpoint serializable (v : JSValue) : bool :=
  match v with
  | JSUndefined => false
  | JSNull | JSBoolean _ | JSString _ => true
  | JSNumber z => (Z.abs_N z <=? max_safe_integer)%N
  | JSArray l => forallb serializable l
  | JSObject m =>
      plain_keys (List.map fst m) && forallb (fun kv => serializable (snd kv)) m
  end.

(** The fuel that reading a value back takes. *)
Fixpoint size (v : JSValue) : nat :=
  match v with
  | JSArray l => S (list_sum (List.map (fun e => S (size e)) l))
  | JSObject m => S (list_sum (List.map (fun kv => S (size (snd kv))) m))
  | _ => 1
  end.

Definition elements_size (l : list JSValue) : nat :=
  list_sum (List.map (fun e => S (size e)) l).

Definition members_size (m : list (string * JSValue)) : nat :=
  list_sum (List.map (fun kv => S (size (snd kv))) m).

(** The text of an array element and of an object property, as
    [JSON_stringify] writes them. *)
Definition element_text (e : JSValue) : string :=
  match JSON_stringify e with Some t => t | None => "null" end.

Definition member_text (kv : string * JSValue) : list string :=
  match JSON_stringify (snd kv) with
  | Some t => [QuoteJSONString (fst kv) +:+ String ":" t]
  | None => []
  end.

Definition property_text (kv : string * JSValue) : string :=
  QuoteJSONString (fst kv) +:+ String ":" (element_text (snd kv)).

(** The text after a value: the end, or a character that cannot continue
    a number. *)
Definition boundary (rest : string) : bool :=
  match rest with
  | EmptyString => true
  | String c _ => negb (is_digit c) && negb (starts_fraction rest)
  end.

(** The first character of a text is neither white space nor the bracket
    that closes an array. *)
Definition head_plain (t : string) : bool :=
  match t with
  | EmptyString => false
  | String c _ => negb (is_ws c) && negb (Ascii.eqb c "]")
  end.

(** What the round trip needs of the text [t] of a value [v]. *)
Definition reads_back (v : JSValue) (t : string) : Prop :=
  head_plain t = true /\
  size v <= String.length t /\
  forall fuel rest, size v <= fuel -> boundary rest = true ->
    parse_value fuel (t +:+ rest) = Accept (Some v) rest.

Definition reads_back_value (v : JSValue) : Prop :=
  serializable v = true ->
  exists t, JSON_stringify v = Some t /\ reads_back v t.

(** *** The texts the parser accepts *)

(** The fuel that reading the text of any value takes: a property without
    a JSON text is not written, and costs nothing. *)
Fixpoint text_size (v : JSValue) : nat :=
  match v with
  | JSArray l => S (list_sum (List.map (fun e => S (text_size e)) l))
  | JSObject m =>
      S (list_sum (List.map (fun kv => match JSON_stringify (snd kv) with
                                       | Some _ => S (text_size (snd kv))
                                       | None => 0
                                       end) m))
  | _ => 1
  end.

(** The properties of an object that [JSON_stringify] writes. *)
Definition has_text (kv : string * JSValue) : bool :=
  match JSON_stringify (snd kv) with
  | Some _ => true
  | None => false
  end.

(** The parser accepts the text [t], with the fuel [n], before any
    boundary. *)
Definition accepts_text (n : nat) (t : string) : Prop :=
  head_plain t = true /\
  n <= String.length t /\
  forall fuel rest, n <= fuel -> boundary rest = true ->
    exists r, parse_value fuel (t +:+ rest) = Accept r rest.

Definition elements_text_size (l : list JSValue) : nat :=
  list_sum (List.map (fun e => S (text_size e)) l).

Definition members_text_size (ms : list (string * JSValue)) : nat :=
  list_sum (List.map (fun kv => S (text_size (snd kv))) ms).

End JSON.

Module LocalStorage.
Import JSON.

(** ** The host: the storage object and the console *)

Inductive Error : Type :=
| SecurityError
| QuotaExceededError
| SyntaxError
| TypeError.

(** The four states of [localStorage] the helpers can meet:
    - [Undefined]: [globalThis.localStorage] is [undefined] (rendering on
      the server);
    - [Forbidden]: reading the property throws (storage blocked by the
      browser);
    - [Exhausted items]: [getItem] answers and [setItem] throws (the quota
      is used up);
    - [Available items]: both operations succeed. *)
Inductive Storage : Type :=
| Undefined
| Forbidden
| Exhausted (items : gmap string string)
| Available (items : gmap string string).

Record World : Type := mkWorld {
  localStorage : Storage;
  console : list Error
}.

(** ** Completions

    A call returns a value or throws, and leaves a world. *)
Inductive Completion (A : Type) : Type :=
| Return (a : A) (w : World)
| Throw (e : Error) (w : World).
Arguments Return {A} a w.
Arguments Throw {A} e w.

Definition Js (A : Type) : Type := World -> Completion A.

Definition ret {A} (a : A) : Js A := fun w => Return a w.

Definition bind {A B} (m : Js A) (k : A -> Js B) : Js B :=
  fun w =>
    match m w with
    | Return a w' => k a w'
    | Throw e w' => Throw e w'
    end.

(** [try { body } catch (err) { handler err }] *)
Definition try_catch {A} (body : Js A) (handler : Error -> Js A) : Js A :=
  fun w =>
    match body w with
    | Return a w' => Return a w'
    | Throw e w' => handler e w'
    end.

Notation "x <- m ;; k" := (bind m (fun x => k))
  (at level 100, m at next level, right associativity).
Notation "m ;; k" := (bind m (fun _ => k))
  (at level 100, right associativity).

(** ** The operations of the host *)

(** [globalThis.localStorage === undefined] *)
Definition localStorage_is_undefined : Js bool :=
  fun w =>
    match localStorage w with
    | Undefined => Return true w
    | Forbidden => Throw SecurityError w
    | Exhausted _ | Available _ => Return false w
    end.

(** [window.localStorage.setItem(key, value)] *)
Definition window_localStorage_setItem (key value : string) : Js unit :=
  fun w =>
    match localStorage w with
    | Undefined => Throw TypeError w
    | Forbidden => Throw SecurityError w
    | Exhausted _ => Throw QuotaExceededError w
    | Available items => Return tt (mkWorld (Available (<[key := value]> items)) (console w))
    end.

(** [window.localStorage.getItem(key)]: [None] is [null]. *)
Definition window_localStorage_getItem (key : string) : Js (option string) :=
  fun w =>
    match localStorage w with
    | Undefined => Throw TypeError w
    | Forbidden => Throw SecurityError w
    | Exhausted items | Available items => Return (items !! key) w
    end.

(** [console.log(err)] *)
Definition console_log (err : Error) : Js unit :=
  fun w => Return tt (mkWorld (localStorage w) (console w ++ [err])).

(** [JSON.parse(text)] as a call. *)
Definition JSON_parse_call (text : string) : Js Read :=
  fun w =>
    match JSON_parse text with
    | Returns r => Return r w
    | ThrowsSyntaxError => Throw SyntaxError w
    end.

(** The string [setItem] stores for the result of [JSON.stringify]: the
    text, or ["undefined"] when the result is [undefined]. *)
Definition DOMString (t : option string) : string :=
  match t with
  | Some text => text
  | None => "undefined"
  end.

(** [if (storedData)]: [null] and the empty string are falsy; a truthy
    [storedData] is a string that is not empty. *)
Definition truthy (storedData : option string) : option string :=
  match storedData with
  | None => None
  | Some text => if String.eqb text EmptyString then None else Some text
  end.

(** ** The helpers *)

(** [setLocalStorage], the first helper of the source:
    [try { if (globalThis.localStorage === undefined) { return }
           window.localStorage.setItem(key, JSON.stringify(data)) }
     catch (err) { console.log(err) }]. *)
Definition setLocalStorage (key : string) (data : JSValue) : Js unit :=
  try_catch
    (undefined <- localStorage_is_undefined ;;
     if undefined : bool then ret tt
     else window_localStorage_setItem key (DOMString (JSON_stringify data)))
    (fun err => console_log err).

(** [getLocalStorage], the second helper of the source:
    [try { if (globalThis.localStorage === undefined) { return initialValue }
           const storedData = window.localStorage.getItem(key)
           if (storedData) return JSON.parse(storedData)
           setLocalStorage(key, initialValue)
           return initialValue }
     catch (err) { console.log(err); return initialValue }].
    What it returns is [initialValue], which is [Known], or what
    [JSON.parse] returned. *)
Definition getLocalStorage (key : string) (initialValue : JSValue) : Js Read :=
  try_catch
    (undefined <- localStorage_is_undefined ;;
     if undefined : bool then ret (Known initialValue)
     else
       storedData <- window_localStorage_getItem key ;;
       match truthy storedData with
       | Some text => JSON_parse_call text
       | None =>
           setLocalStorage key initialValue ;;
           ret (Known initialValue)
       end)
    (fun err => console_log err ;; ret (Known initialValue)).

(** ** Observations *)

(** The string stored under [key], when the storage can be read. *)
Definition stored (w : World) (key : string) : option string :=
  match localStorage w with
  | Exhausted items | Available items => items !! key
  | Undefined | Forbidden => None
  end.

(** No storage: [localStorage] is undefined, or every access throws. *)
Definition unavailable (s : Storage) : bool :=
  match s with
  | Undefined | Forbidden => true
  | Exhausted _ | Available _ => false
  end.

(** A run of writes, in order; it stops at the first call that does not
    return. *)
Fixpoint write_all (writes : list (string * JSValue)) : Js unit :=
  match writes with
  | [] => ret tt
  | (key, data) :: writes' => setLocalStorage key data ;; write_all writes'
  end.

(** [times] reads of the same key, one after the other. *)
Fixpoint read_times (times : nat) (key : string) (initialValue : JSValue) : Js unit :=
  match times with
  | O => ret tt
  | S times' => getLocalStorage key initialValue ;; read_times times' key initialValue
  end.

(** What a call gave back, when it returned. *)
Definition returned {A} (c : Completion A) : option A :=
  match c with
  | Return a _ => Some a
  | Throw _ _ => None
  end.

(** The world a call leaves. *)
Definition world_after {A} (c : Completion A) : World :=
  match c with
  | Return _ w | Throw _ w => w
  end.

End LocalStorage.

Module AnyArgument.
Import JSON LocalStorage.

(** ** The helpers on every argument

    The helpers are generic, [data: T] and [initialValue: T]: they are
    handed any value of JavaScript, also one without a place in [JSValue].
    All they do with the value is to pass it to [JSON.stringify] and, in
    [getLocalStorage], to give it back. [JSON.stringify] has three outcomes:
    a text, [undefined], or a TypeError. An [Argument] is
    - [Modelled v], a value of [JSValue];
    - [Textless], a function or a symbol: [JSON.stringify] returns
      [undefined];
    - [Unserializable], a BigInt, or an object that has a BigInt or a cycle
      inside: [JSON.stringify] throws a TypeError. *)
Inductive Argument : Type :=
| Modelled (v : JSValue)
| Textless
| Unserializable.

Inductive StringifyResult : Type :=
| Gives (text : option string)
| ThrowsTypeError.

(** [JSON.stringify] on every argument; [Gives None] is [undefined]. *)
Definition JSON_stringify (data : Argument) : StringifyResult :=
  match data with
  | Modelled v => Gives (JSON.JSON_stringify v)
  | Textless => Gives None
  | Unserializable => ThrowsTypeError
  end.

(** [JSON.stringify(data)] as a call. *)
Definition JSON_stringify_call (data : Argument) : Js (option string) :=
  fun w =>
    match JSON_stringify data with
    | Gives text => Return text w
    | ThrowsTypeError => Throw TypeError w
    end.

(** [setLocalStorage]:
    [try { if (globalThis.localStorage === undefined) { return }
           window.localStorage.setItem(key, JSON.stringify(data)) }
     catch (err) { console.log(err) }].
    The argument [JSON.stringify(data)] is evaluated before [setItem] is
    called: a TypeError of [JSON.stringify] comes before the error of a
    storage whose quota is used up. *)
Definition setLocalStorage (key : string) (data : Argument) : Js unit :=
  try_catch
    (undefined <- localStorage_is_undefined ;;
     if undefined : bool then ret tt
     else
       text <- JSON_stringify_call data ;;
       window_localStorage_setItem key (DOMString text))
    (fun err => console_log err).

(** What [getLocalStorage] returns: [initialValue] itself, or what
    [JSON.parse] returned. *)
Inductive Returned : Type :=
| Given (initialValue : Argument)
| Parsed (r : Read).

(** [getLocalStorage]:
    [try { if (globalThis.localStorage === undefined) { return initialValue }
           const storedData = window.localStorage.getItem(key)
           if (storedData) return JSON.parse(storedData)
           setLocalStorage(key, initialValue)
           return initialValue }
     catch (err) { console.log(err); return initialValue }]. *)
Definition getLocalStorage (key : string) (initialValue : Argument) : Js Returned :=
  try_catch
    (undefined <- localStorage_is_undefined ;;
     if undefined : bool then ret (Given initialValue)
     else
       storedData <- window_localStorage_getItem key ;;
       match truthy storedData with
       | Some text => r <- JSON_parse_call text ;; ret (Parsed r)
       | None =>
           setLocalStorage key initialValue ;;
           ret (Given initialValue)
       end)
    (fun err => console_log err ;; ret (Given initialValue)).

(** What is returned, as a [Read]: for the comparison with the helpers on
    [JSValue]. An argument outside [JSValue] is [Beyond]. *)
Definition read_of (r : Returned) : Read :=
  match r with
  | Given (Modelled v) => Known v
  | Given _ => Beyond
  | Parsed r => r
  end.

End AnyArgument.

Module Scroll.

(** ** The scroll percent *)

(** [clamp lo hi x]: [x] brought into the interval from [lo] to [hi]. *)
Definition clamp (lo hi x : Q) : Q :=
  if Qle_bool x lo then lo else if Qle_bool hi x then hi else x.

(** Modelled from the spec: the percent the Scroll Provider computes.
    [components/ScrollProvider] is not among the sources; the spec gives
    the percent as the current vertical offset over the maximum offset,
    times 100, clamped to the interval from 0 to 100, and as 0 when the
    maximum offset is 0. Offsets are whole pixels; the percent is an exact
    rational here. *)
Definition scroll_percent (offset maxOffset : Z) : Q :=
  if (maxOffset =? 0)%Z then 0%Q
  else clamp 0 100 (inject_Z offset / inject_Z maxOffset * 100)%Q.

(** [components/ScrollProgress.tsx]: the bar takes the percent [length] of
    the provider as its width or its height,
    [style={{ [control]: `${length}%` }}]. *)
Inductive Control : Type := width | height.

Definition ScrollProgress (control : Control) (length : Q) : Control * Q :=
  (control, length).

End Scroll.

Module Content.

(** ** Headings and articles *)

Definition separator : ascii := "-"%char.

Definition is_upper (c : ascii) : bool :=
  let n := N_of_ascii c in ((65 <=? n) && (n <=? 90))%N.

Definition is_lower (c : ascii) : bool :=
  let n := N_of_ascii c in ((97 <=? n) && (n <=? 122))%N.

Definition is_space (c : ascii) : bool :=
  let n := N_of_ascii c in ((n =? 32) || ((9 <=? n) && (n <=? 13)))%N.

Definition lower_case (c : ascii) : ascii :=
  if is_upper c then ascii_of_N (N_of_ascii c + 32) else c.

Definition is_alphanumeric (c : ascii) : bool :=
  is_upper c || is_lower c || JSON.is_digit c.

Fixpoint lower_cased (s : string) : string :=
  match s with
  | EmptyString => EmptyString
  | String c r => String (lower_case c) (lower_cased r)
  end.

Fixpoint strip_punctuation (s : string) : string :=
  match s with
  | EmptyString => EmptyString
  | String c r =>
      if is_alphanumeric c || is_space c then String c (strip_punctuation r)
      else strip_punctuation r
  end.

(** [in_run] tells that the character before was a space, whose run has
    its separator already. *)
Fixpoint collapse_spaces (in_run : bool) (s : string) : string :=
  match s with
  | EmptyString => EmptyString
  | String c r =>
      if is_space c then
        if in_run then collapse_spaces true r
        else String separator (collapse_spaces true r)
      else String c (collapse_spaces false r)
  end.

(** Modelled from the spec: the slug of a heading. The transform is applied
    by the content loader, which is not among the sources; the spec gives
    the slug as the heading text lower-cased, with the punctuation
    stripped and each run of spaces collapsed to a single separator. *)
Definition slug (heading : string) : string :=
  collapse_spaces false (strip_punctuation (lower_cased heading)).

(** A character a slug may hold, and a slug without two separators in a
    row. *)
Definition slug_char (c : ascii) : bool :=
  is_lower c || JSON.is_digit c || Ascii.eqb c separator.

Fixpoint all_slug_chars (s : string) : bool :=
  match s with
  | EmptyString => true
  | String c r => slug_char c && all_slug_chars r
  end.

Fixpoint single_separators (s : string) : bool :=
  match s with
  | String a ((String b _) as r) =>
      negb (Ascii.eqb a separator && Ascii.eqb b separator) && single_separators r
  | _ => true
  end.

(** Modelled from the spec: an article with the attributes of its front
    matter. The content loader is not among the sources; [date] is the
    human-readable string of the front matter. *)
Record Article : Type := mkArticle {
  title : string;
  date : string;
  published : bool;
  listed : bool;
  description : string;
  tags : list string;
  body : string
}.

(** A content file: the route it is served at and its article. *)
Record ContentFile : Type := mkContentFile {
  path : string;
  article : Article
}.

Section Index.

(** The instant a date string denotes. *)
Variable timestamp : string -> Z.

Definition instant (a : Article) : Z := timestamp (date a).

Definition visible (a : Article) : bool := listed a && published a.

(** [newer_or_same a b]: [a] may be presented before [b]. *)
Definition newer_or_same (a b : Article) : Prop :=
  (instant b <= instant a)%Z.

(** Insertion into a list in descending date order; among equal dates the
    inserted article comes first. *)
Fixpoint insert_by_date (a : Article) (l : list Article) : list Article :=
  match l with
  | [] => [a]
  | b :: l' =>
      if (instant b <=? instant a)%Z then a :: l
      else b :: insert_by_date a l'
  end.

Definition sort_by_date (l : list Article) : list Article :=
  List.fold_right insert_by_date [] l.

(** Modelled from the spec: the generated index. The content loader is not
    among the sources; the spec gives the index as the articles with
    [listed] and [published], presented in descending date order. *)
Definition generate_index (files : list ContentFile) : list Article :=
  sort_by_date (List.filter visible (List.map article files)).

(** Modelled from the spec: the article a direct route resolves to. The
    routing is not among the sources; the spec has the route of an article
    with [published] false resolve to a not-found state, here [None]. *)
Definition resolve_route (files : list ContentFile) (route : string) : option Article :=
  match List.find (fun f => String.eqb (path f) route) files with
  | Some f => if published (article f) then Some (article f) else None
  | None => None
  end.

End Index.

(** Two files whose front matter differs in [published] only; [released]
    has the front matter of the article on Suspense among the sources. *)
Definition draft : ContentFile :=
  mkContentFile "suspense-draft"
    (mkArticle "Suspense in React 18" "August 21 2022" false true
       "Trying to gain a more intuitive understanding of Suspense in React 18."
       ["react"; "suspense"] "## What is Suspense?").

Definition released : ContentFile :=
  mkContentFile "suspense"
    (mkArticle "Suspense in React 18" "August 21 2022" true true
       "Trying to gain a more intuitive understanding of Suspense in React 18."
       ["react"; "suspense"] "## What is Suspense?").

Definition older : ContentFile :=
  mkContentFile "hello"
    (mkArticle "Hello" "May 2 2021" true true "A first note." ["misc"] "## Hello").

Definition unlisted : ContentFile :=
  mkContentFile "scratch"
    (mkArticle "Scratch" "January 11 2023" true false "Notes." [] "## Notes").

(** A reading of the dates written as in the front matter among the
    sources, [August 21 2022]: the year, the month and the day as one
    number. A string of another form reads as 0. *)
Fixpoint split_words (word s : string) : list string :=
  match s with
  | EmptyString => [word]
  | String c r =>
      if is_space c then word :: split_words EmptyString r
      else split_words (word +:+ String c EmptyString) r
  end.

Definition month_number (m : string) : Z :=
  (fix find (names : list string) (n : Z) : Z :=
     match names with
     | [] => 0
     | name :: names' => if String.eqb name m then n else find names' (n + 1)
     end)%Z
    ["January"; "February"; "March"; "April"; "May"; "June"; "July";
     "August"; "September"; "October"; "November"; "December"] 1%Z.

Definition number (s : string) : Z :=
  match NilZero.uint_of_string s with
  | Some u => Z.of_N (N.of_uint u)
  | None => 0
  end.

Definition Date_parse (d : string) : Z :=
  match split_words EmptyString d with
  | [m; day; year] => (number year * 10000 + month_number m * 100 + number day)%Z
  | _ => 0
  end.

End Content.

(** * Facts *)

Module JSONFacts.
Import JSON.

(** ** Reading back what [JSON_stringify] wrote *)

Lemma append_assoc (a b c : string) : (a +:+ b) +:+ c = a +:+ (b +:+ c).
Proof. induction a as [|x a IH]; simpl; [reflexivity | f_equal; exact IH]. Qed.

Lemma length_append (a b : string) :
  String.length (a +:+ b) = String.length a + String.length b.
Proof. induction a as [|x a IH]; simpl; [reflexivity | f_equal; exact IH]. Qed.

Lemma span_digits_boundary rest :
  boundary rest = true -> span_digits rest = (EmptyString, rest).
Proof.
  destruct rest as [|c r]; [reflexivity|]. simpl. intros H.
  apply andb_true_iff in H as [H _]. apply negb_true_iff in H. now rewrite H.
Qed.

Lemma span_digits_append ds rest :
  all_digits ds = true -> boundary rest = true ->
  span_digits (ds +:+ rest) = (ds, rest).
Proof.
  intros Hds Hb. induction ds as [|c ds IH]; simpl.
  - now apply span_digits_boundary.
  - simpl in Hds. apply andb_true_iff in Hds as [Hc Hds].
    rewrite Hc, (IH Hds). reflexivity.
Qed.

Lemma parse_chars_escape c rest :
  parse_chars (escape c +:+ rest) = cons_char (Some c) (parse_chars rest).
Proof. destruct c as [[] [] [] [] [] [] [] []]; reflexivity. Qed.

Lemma parse_chars_escape_all s rest :
  parse_chars (escape_all s +:+ String dquote rest) = Accept (Some s) rest.
Proof.
  induction s as [|c s IH]; simpl; [reflexivity|].
  rewrite append_assoc, parse_chars_escape, IH. reflexivity.
Qed.

Lemma string_of_uint_digits u : all_digits (NilEmpty.string_of_uint u) = true.
Proof. induction u; simpl; auto. Qed.

Lemma to_uint_not_D0 p u : Pos.to_uint p <> Decimal.D0 u.
Proof.
  intros E.
  assert (Hn : Decimal.unorm (Pos.to_uint p) = Pos.to_uint p).
  { rewrite <- DecimalPos.Unsigned.to_of, DecimalPos.Unsigned.of_to. reflexivity. }
  rewrite E in Hn. unfold Decimal.unorm in Hn.
  destruct (Decimal.nzhead (Decimal.D0 u)) eqn:Hz;
    try (apply (DecimalFacts.nzhead_nonzero (Decimal.D0 u) u); congruence).
  apply (DecimalPos.Unsigned.to_uint_nonzero p). congruence.
Qed.

Lemma digits_of_pos p :
  exists d ds, NilZero.string_of_uint (Pos.to_uint p) = String d ds /\
    is_digit d = true /\ all_digits ds = true /\ Ascii.eqb d "0" = false.
Proof.
  pose proof (to_uint_not_D0 p) as H0.
  pose proof (DecimalPos.Unsigned.to_uint_nonnil p) as Hnil.
  destruct (Pos.to_uint p) as [|u|u|u|u|u|u|u|u|u|u]; simpl;
    try congruence;
    try (eexists _, _; repeat split; apply string_of_uint_digits).
Qed.

Lemma boundary_no_fraction rest : boundary rest = true -> starts_fraction rest = false.
Proof.
  destruct rest; [reflexivity|]. simpl. intros Hb.
  apply andb_true_iff in Hb as [_ Hb]. now apply negb_true_iff in Hb.
Qed.

Lemma parse_fraction_boundary rest :
  boundary rest = true -> parse_fraction rest = Some (false, rest).
Proof.
  intros Hb. apply boundary_no_fraction in Hb.
  destruct rest as [|c r]; [reflexivity|]. simpl in *.
  apply orb_false_iff in Hb as [Hb _]. apply orb_false_iff in Hb as [Hb _].
  now rewrite Hb.
Qed.

Lemma parse_exponent_boundary rest :
  boundary rest = true -> parse_exponent rest = Some (false, rest).
Proof.
  intros Hb. apply boundary_no_fraction in Hb.
  destruct rest as [|c r]; [reflexivity|]. simpl in *.
  apply orb_false_iff in Hb as [Hb He2]. apply orb_false_iff in Hb as [_ He1].
  now rewrite He1, He2.
Qed.

Lemma parse_digits_pos negative p rest :
  (Npos p <= max_safe_integer)%N -> boundary rest = true ->
  parse_digits negative (NilZero.string_of_uint (Pos.to_uint p) +:+ rest)
  = Accept (Some (JSNumber (if negative then Zneg p else Zpos p))) rest.
Proof.
  intros Hsafe Hb. unfold parse_digits.
  destruct (digits_of_pos p) as (d & ds & E & Hd & Hds & Hnz).
  rewrite span_digits_append; [| rewrite E; simpl; now rewrite Hd | exact Hb].
  rewrite (parse_fraction_boundary rest Hb), (parse_exponent_boundary rest Hb).
  unfold integer_value.
  rewrite NilZero.usu by apply DecimalPos.Unsigned.to_uint_nonnil.
  rewrite E at 1. rewrite Hnz. simpl andb. cbv iota.
  change (N.of_uint (Pos.to_uint p)) with (N.of_uint (N.to_uint (Npos p))).
  rewrite DecimalN.Unsigned.of_to.
  apply N.ltb_ge in Hsafe. rewrite Hsafe.
  destruct negative; reflexivity.
Qed.

Lemma stringify_array l :
  JSON_stringify (JSArray l)
  = Some (String "[" (join_comma (List.map element_text l) +:+ "]")).
Proof. reflexivity. Qed.

Lemma stringify_object m :
  JSON_stringify (JSObject m)
  = Some (String "{" (join_comma (List.flat_map member_text m) +:+ "}")).
Proof. reflexivity. Qed.

Lemma parse_value_S fuel c r :
  is_ws c = false ->
  parse_value (S fuel) (String c r) =
    if Ascii.eqb c "[" then
      match skip_ws r with
      | String c' r' =>
          if Ascii.eqb c' "]" then Accept (Some (JSArray [])) r'
          else parsed_bind (parse_elements fuel r) mk_array
      | EmptyString => Reject
      end
    else if Ascii.eqb c "{" then
      match skip_ws r with
      | String c' r' =>
          if Ascii.eqb c' "}" then Accept (Some (JSObject [])) r'
          else parsed_bind (parse_members fuel r) mk_object
      | EmptyString => Reject
      end
    else if Ascii.eqb c dquote then parsed_bind (parse_chars r) mk_string
    else if Ascii.eqb c "-" then parse_digits true r
    else if is_digit c then parse_digits false (String c r)
    else parse_literal (String c r).
Proof. intros H. simpl. rewrite H. reflexivity. Qed.

Lemma skip_ws_head_plain t rest :
  head_plain t = true -> exists c r, t +:+ rest = String c r /\
    skip_ws (t +:+ rest) = String c r /\ is_ws c = false /\ Ascii.eqb c "]" = false.
Proof.
  destruct t as [|c t]; [discriminate|]. simpl. intros H.
  apply andb_true_iff in H as [H1 H2].
  apply negb_true_iff in H1. apply negb_true_iff in H2.
  exists c, (t +:+ rest). rewrite H1. auto.
Qed.

Lemma digit_branches d :
  is_digit d = true ->
  is_ws d = false /\ Ascii.eqb d "[" = false /\ Ascii.eqb d "{" = false /\
  Ascii.eqb d dquote = false /\ Ascii.eqb d "-" = false /\ Ascii.eqb d "]" = false.
Proof.
  destruct d as [[] [] [] [] [] [] [] []]; vm_compute; intros H;
    first [discriminate H | repeat split].
Qed.

Lemma reads_back_number z :
  (Z.abs_N z <=? max_safe_integer)%N = true -> reads_back (JSNumber z) (Number_toString z).
Proof.
  intros Hsafe. apply N.leb_le in Hsafe.
  destruct z as [|p|p]; simpl in Hsafe.
  - repeat split; simpl; [lia|]. intros [|fuel] rest Hf Hb; [lia|].
    simpl. unfold parse_digits. simpl.
    rewrite (span_digits_boundary rest Hb).
    rewrite (parse_fraction_boundary rest Hb), (parse_exponent_boundary rest Hb).
    reflexivity.
  - destruct (digits_of_pos p) as (d & ds & E & Hd & Hds & Hnz).
    unfold Number_toString. change (N.to_uint (N.pos p)) with (Pos.to_uint p).
    destruct (digit_branches d Hd) as (Hw & H1 & H2 & H3 & H4 & H5).
    repeat split.
    + rewrite E. simpl. now rewrite Hw, H5.
    + rewrite E. simpl. lia.
    + intros [|fuel] rest Hf Hb; [simpl in Hf; lia|].
      pose proof (parse_digits_pos false p rest Hsafe Hb) as Hp.
      rewrite E in Hp |- *. simpl String.append in Hp |- *.
      rewrite parse_value_S by exact Hw.
      now rewrite H1, H2, H3, H4, Hd.
  - unfold Number_toString. change (N.to_uint (N.pos p)) with (Pos.to_uint p).
    repeat split; simpl; [lia|].
    intros [|fuel] rest Hf Hb; [lia|].
    rewrite parse_value_S by reflexivity. simpl.
    apply (parse_digits_pos true p rest Hsafe Hb).
Qed.

Lemma reads_back_string s : reads_back (JSString s) (QuoteJSONString s).
Proof.
  repeat split; simpl; [lia|].
  intros [|fuel] rest Hf Hb; [lia|].
  unfold QuoteJSONString. simpl String.append.
  rewrite parse_value_S by reflexivity. simpl.
  rewrite append_assoc. simpl String.append.
  rewrite parse_chars_escape_all. reflexivity.
Qed.

Lemma element_text_reads_back e :
  reads_back_value e -> serializable e = true -> reads_back e (element_text e).
Proof.
  intros IH Hs. destruct (IH Hs) as (t & E & Hr). unfold element_text. now rewrite E.
Qed.

Lemma join_comma_cons t l :
  l <> [] -> join_comma (t :: l) = t +:+ String "," (join_comma l).
Proof. destruct l; [congruence | reflexivity]. Qed.

Lemma elements_size_cons e l : elements_size (e :: l) = S (size e + elements_size l).
Proof. reflexivity. Qed.

Lemma parse_elements_text l :
  Forall reads_back_value l -> forallb serializable l = true -> l <> [] ->
  head_plain (join_comma (List.map element_text l)) = true /\
  elements_size l <= S (String.length (join_comma (List.map element_text l))) /\
  forall fuel rest, elements_size l <= fuel ->
    parse_elements fuel (join_comma (List.map element_text l) +:+ String "]" rest)
    = Accept (Some l) rest.
Proof.
  induction 1 as [|e l He Hl IH]; [congruence|]. intros Hs _.
  simpl in Hs. apply andb_true_iff in Hs as [Hse Hsl].
  destruct (element_text_reads_back e He Hse) as (Hh & Hlen & Hp).
  rewrite elements_size_cons.
  destruct l as [|e' l'].
  - change (elements_size []) with 0. simpl. split; [exact Hh|]. split; [lia|].
    intros [|fuel] rest Hf; [lia|].
    simpl parse_elements.
    rewrite Hp; [| lia | reflexivity].
    reflexivity.
  - destruct (IH Hsl) as (Hh' & Hlen' & Hp'); [congruence|].
    change (List.map element_text (e :: e' :: l'))
      with (element_text e :: List.map element_text (e' :: l')).
    rewrite join_comma_cons by discriminate.
    set (J := join_comma (List.map element_text (e' :: l'))) in *.
    set (n := elements_size (e' :: l')) in *.
    split; [| split].
    + destruct (element_text e); [discriminate | exact Hh].
    + rewrite length_append. simpl String.length. lia.
    + intros [|fuel] rest Hf; [lia|].
      rewrite append_assoc. simpl String.append.
      simpl parse_elements.
      rewrite Hp; [| lia | reflexivity].
      simpl. rewrite Hp'; [reflexivity | lia].
Qed.

Lemma stringify_serializable v :
  serializable v = true -> JSON_stringify v = Some (element_text v).
Proof. destruct v; simpl; intros H; try discriminate H; reflexivity. Qed.

Lemma flat_map_member_text m :
  forallb (fun kv => serializable (snd kv)) m = true ->
  List.flat_map member_text m = List.map property_text m.
Proof.
  induction m as [|kv m IH]; simpl; [reflexivity|]. intros H.
  apply andb_true_iff in H as [Hkv Hm]. rewrite (IH Hm).
  unfold member_text, property_text. rewrite (stringify_serializable _ Hkv).
  reflexivity.
Qed.

Lemma members_size_cons kv m :
  members_size (kv :: m) = S (size (snd kv) + members_size m).
Proof. reflexivity. Qed.

Lemma property_text_eq k v rest :
  property_text (k, v) +:+ rest
  = String dquote (escape_all k +:+ String dquote (String ":" (element_text v +:+ rest))).
Proof.
  unfold property_text, QuoteJSONString. simpl.
  rewrite !append_assoc. simpl. reflexivity.
Qed.

Lemma parse_members_text m :
  Forall (fun kv => reads_back_value (snd kv)) m ->
  forallb (fun kv => serializable (snd kv)) m = true -> m <> [] ->
  (exists y, join_comma (List.map property_text m) = String dquote y) /\
  members_size m <= S (String.length (join_comma (List.map property_text m))) /\
  forall fuel rest, members_size m <= fuel ->
    parse_members fuel (join_comma (List.map property_text m) +:+ String "}" rest)
    = Accept (Some m) rest.
Proof.
  induction 1 as [|[k v] m Hv Hm IH]; [congruence|]. intros Hs _.
  simpl in Hs. apply andb_true_iff in Hs as [Hsv Hsm].
  destruct (element_text_reads_back v Hv Hsv) as (Hh & Hlen & Hp).
  rewrite members_size_cons. simpl snd.
  destruct m as [|kv' m'].
  - change (members_size []) with 0. simpl List.map. simpl join_comma.
    split; [| split].
    + eexists. unfold property_text, QuoteJSONString. simpl. reflexivity.
    + unfold property_text, QuoteJSONString. simpl.
      rewrite ?length_append; simpl; rewrite ?length_append; simpl; lia.
    + intros [|fuel] rest Hf; [lia|].
      rewrite property_text_eq. simpl parse_members.
      rewrite parse_chars_escape_all. simpl.
      rewrite Hp; [| lia | reflexivity]. reflexivity.
  - destruct (IH Hsm) as (Hh' & Hlen' & Hp'); [congruence|].
    change (List.map property_text ((k, v) :: kv' :: m'))
      with (property_text (k, v) :: List.map property_text (kv' :: m')).
    rewrite join_comma_cons by discriminate.
    set (J := join_comma (List.map property_text (kv' :: m'))) in *.
    set (n := members_size (kv' :: m')) in *.
    split; [| split].
    + eexists. unfold property_text, QuoteJSONString. simpl. reflexivity.
    + unfold property_text, QuoteJSONString. simpl.
      rewrite ?length_append; simpl; rewrite ?length_append; simpl; lia.
    + intros [|fuel] rest Hf; [lia|].
      rewrite append_assoc, property_text_eq. simpl parse_members.
      rewrite parse_chars_escape_all. simpl.
      rewrite Hp; [| lia | reflexivity].
      simpl. rewrite Hp'; [reflexivity | lia].
Qed.

Theorem stringify_reads_back v : reads_back_value v.
Proof.
  induction v as [| |b|z|s|l IH|m IH] using JSValue_ind; intros Hs.
  - discriminate Hs.
  - exists "null". split; [reflexivity|]. repeat split; simpl; [lia|].
    intros [|fuel] rest Hf Hb; [lia | reflexivity].
  - exists (if b then "true" else "false"). split; [reflexivity|].
    destruct b; (repeat split; simpl; [lia|]);
      intros [|fuel] rest Hf Hb; (lia || reflexivity).
  - eexists. split; [reflexivity|]. now apply reads_back_number.
  - eexists. split; [reflexivity|]. apply reads_back_string.
  - rewrite stringify_array. eexists. split; [reflexivity|].
    simpl in Hs. destruct l as [|e l'].
    + repeat split; simpl; [lia|]. intros [|fuel] rest Hf Hb; [lia | reflexivity].
    + destruct (parse_elements_text (e :: l') IH Hs) as (Hh & Hlen & Hp); [congruence|].
      set (J := join_comma (List.map element_text (e :: l'))) in *.
      unfold reads_back.
      change (size (JSArray (e :: l'))) with (S (elements_size (e :: l'))).
      set (n := elements_size (e :: l')) in *. clearbody J n.
      split; [reflexivity|]. split.
      * simpl. rewrite length_append. simpl. lia.
      * intros [|fuel] rest Hf Hb; [lia|].
        simpl String.append. rewrite append_assoc. simpl String.append.
        rewrite parse_value_S by reflexivity. simpl Ascii.eqb. cbv iota.
        destruct (skip_ws_head_plain J (String "]" rest) Hh) as (c & r & E1 & E2 & Hw & Hc).
        rewrite E2, Hc, Hp by lia. reflexivity.
  - rewrite stringify_object. simpl in Hs.
    apply andb_true_iff in Hs as [Hk Hs].
    rewrite (flat_map_member_text m Hs).
    eexists. split; [reflexivity|].
    destruct m as [|kv m'].
    + repeat split; simpl; [lia|]. intros [|fuel] rest Hf Hb; [lia | reflexivity].
    + destruct (parse_members_text (kv :: m') IH Hs) as ((y & Hy) & Hlen & Hp); [congruence|].
      set (J := join_comma (List.map property_text (kv :: m'))) in *.
      unfold reads_back.
      change (size (JSObject (kv :: m'))) with (S (members_size (kv :: m'))).
      set (n := members_size (kv :: m')) in *.
      split; [reflexivity|]. split.
      * simpl. rewrite length_append. simpl. lia.
      * intros [|fuel] rest Hf Hb; [lia|].
        simpl String.append. rewrite append_assoc. simpl String.append.
        rewrite parse_value_S by reflexivity. simpl Ascii.eqb. cbv iota.
        rewrite Hp by lia. rewrite Hy. simpl.
        unfold mk_object. now rewrite Hk.
Qed.

Lemma append_nil_r s : s +:+ EmptyString = s.
Proof. induction s as [|c s IH]; simpl; [reflexivity | f_equal; exact IH]. Qed.

(** [JSON.parse(JSON.stringify(v))] is [v] for a serializable [v], and the
    text is never empty. *)
Theorem JSON_parse_stringify v :
  serializable v = true ->
  exists t, JSON_stringify v = Some t /\ t <> EmptyString /\
    JSON_parse t = Returns (Known v).
Proof.
  intros Hs. destruct (stringify_reads_back v Hs) as (t & E & Hh & Hlen & Hp).
  exists t. split; [exact E|]. split.
  - intros ->. discriminate Hh.
  - unfold JSON_parse.
    specialize (Hp (fuel_for t) EmptyString).
    rewrite append_nil_r in Hp.
    rewrite Hp; [reflexivity | unfold fuel_for; lia | reflexivity].
Qed.

(** ** The parser never lacks fuel *)

Lemma skip_ws_length s : String.length (skip_ws s) <= String.length s.
Proof.
  induction s as [|c s IH]; simpl; [lia|]. destruct (is_ws c); simpl; lia.
Qed.

Lemma skip_ws_cons s c r :
  skip_ws s = String c r -> String.length r < String.length s.
Proof.
  intros H. pose proof (skip_ws_length s) as Hl. rewrite H in Hl. simpl in Hl. lia.
Qed.

Lemma span_digits_length s :
  String.length s
  = String.length (fst (span_digits s)) + String.length (snd (span_digits s)).
Proof.
  induction s as [|c s IH]; simpl; [reflexivity|].
  destruct (is_digit c); [| reflexivity].
  destruct (span_digits s) as [ds rest]. simpl in *. lia.
Qed.

Lemma parse_fraction_length s b rest :
  parse_fraction s = Some (b, rest) -> String.length rest <= String.length s.
Proof.
  destruct s as [|c r]; simpl; [intros [= <- <-]; simpl; lia|].
  destruct (Ascii.eqb c "."); [| intros [= <- <-]; simpl; lia].
  pose proof (span_digits_length r) as Hl.
  destruct (span_digits r) as [fs rest']. simpl in Hl.
  destruct fs; [discriminate|]. intros [= <- <-]. lia.
Qed.

Lemma parse_exponent_length s b rest :
  parse_exponent s = Some (b, rest) -> String.length rest <= String.length s.
Proof.
  destruct s as [|c r]; simpl; [intros [= <- <-]; simpl; lia|].
  destruct (Ascii.eqb c "e" || Ascii.eqb c "E"); [| intros [= <- <-]; simpl; lia].
  set (r' := match r with
             | String sign r1 => if Ascii.eqb sign "+" || Ascii.eqb sign "-" then r1 else r
             | EmptyString => r
             end).
  assert (Hr : String.length r' <= String.length r).
  { subst r'. destruct r as [|sg r1]; [lia|].
    destruct (Ascii.eqb sg "+" || Ascii.eqb sg "-"); simpl; lia. }
  pose proof (span_digits_length r') as Hl.
  destruct (span_digits r') as [es rest']. simpl in Hl.
  destruct es; [discriminate|]. intros [= <- <-]. lia.
Qed.

Lemma parse_digits_spec negative s :
  parse_digits negative s <> OutOfFuel /\
  forall v rest, parse_digits negative s = Accept v rest ->
    String.length rest < String.length s.
Proof.
  unfold parse_digits. pose proof (span_digits_length s) as Hl.
  destruct (span_digits s) as [ds rest0]. simpl in Hl.
  destruct ds as [|d ds']; [split; [discriminate | intros; discriminate]|].
  destruct (Ascii.eqb d "0" && negb (String.eqb ds' EmptyString));
    [split; [discriminate | intros; discriminate]|].
  destruct (parse_fraction rest0) as [[fr rest1]|] eqn:Ef;
    [| split; [discriminate | intros; discriminate]].
  destruct (parse_exponent rest1) as [[ex rest2]|] eqn:Ee;
    [| split; [discriminate | intros; discriminate]].
  apply parse_fraction_length in Ef. apply parse_exponent_length in Ee.
  split; [discriminate|]. intros v rest [= _ <-]. simpl in Hl. lia.
Qed.

Lemma strip_prefix_length p s rest :
  strip_prefix p s = Some rest -> String.length s = String.length p + String.length rest.
Proof.
  revert s. induction p as [|a p IH]; intros s; simpl; [intros [= ->]; reflexivity|].
  destruct s as [|b s]; [discriminate|]. destruct (Ascii.eqb a b); [| discriminate].
  intros H. apply IH in H. simpl. lia.
Qed.

Lemma parse_literal_spec s :
  parse_literal s <> OutOfFuel /\
  forall v rest, parse_literal s = Accept v rest -> String.length rest < String.length s.
Proof.
  unfold parse_literal.
  destruct (strip_prefix "null" s) eqn:E1;
    [apply strip_prefix_length in E1; split; [discriminate|];
     intros v rest [= _ <-]; simpl in E1; lia|].
  destruct (strip_prefix "true" s) eqn:E2;
    [apply strip_prefix_length in E2; split; [discriminate|];
     intros v rest [= _ <-]; simpl in E2; lia|].
  destruct (strip_prefix "false" s) eqn:E3;
    [apply strip_prefix_length in E3; split; [discriminate|];
     intros v rest [= _ <-]; simpl in E3; lia|].
  split; [discriminate | intros; discriminate].
Qed.

Lemma cons_char_spec c p :
  (p <> OutOfFuel -> cons_char c p <> OutOfFuel) /\
  forall t rest, cons_char c p = Accept t rest -> exists t', p = Accept t' rest.
Proof.
  destruct p as [t' rest'| |]; simpl; split; try congruence.
  intros t rest [= _ <-]. eauto.
Qed.

Lemma parse_chars_spec n : forall s, String.length s <= n ->
  parse_chars s <> OutOfFuel /\
  forall t rest, parse_chars s = Accept t rest -> String.length rest < String.length s.
Proof.
  induction n as [|n IH]; intros s Hn.
  - destruct s; [| simpl in Hn; lia]. simpl. split; [discriminate | intros; discriminate].
  - destruct s as [|c r]; [simpl; split; [discriminate | intros; discriminate]|].
    simpl in Hn. simpl.
    assert (Hstep : forall c' r', String.length r' <= n ->
              String.length r' < String.length (String c r) ->
              cons_char c' (parse_chars r') <> OutOfFuel /\
              forall t rest, cons_char c' (parse_chars r') = Accept t rest ->
                String.length rest < String.length (String c r)).
    { intros c' r' Hr' Hlt. destruct (IH r' Hr') as [H1 H2].
      destruct (cons_char_spec c' (parse_chars r')) as [H3 H4].
      split; [auto|]. intros t rest Hacc. destruct (H4 t rest Hacc) as [t' Ht'].
      specialize (H2 _ _ Ht'). lia. }
    destruct (Ascii.eqb c dquote);
      [split; [discriminate | intros t rest [= _ <-]; simpl; lia]|].
    destruct (Ascii.eqb c backslash).
    + destruct r as [|e r1]; [split; [discriminate | intros; discriminate]|].
      destruct (Ascii.eqb e "u").
      * destruct r1 as [|h1 [|h2 [|h3 [|h4 r2]]]];
          try (split; [discriminate | intros; discriminate]).
        destruct (hex4 h1 h2 h3 h4); [| split; [discriminate | intros; discriminate]].
        apply Hstep; simpl in *; lia.
      * destruct (unescape e); [| split; [discriminate | intros; discriminate]].
        apply Hstep; simpl in *; lia.
    + destruct (N_of_ascii c <? 32)%N; [split; [discriminate | intros; discriminate]|].
      apply Hstep; simpl in *; lia.
Qed.

Lemma parse_chars_total s : parse_chars s <> OutOfFuel.
Proof. apply (parse_chars_spec (String.length s) s). lia. Qed.

Lemma parse_chars_shorter s t rest :
  parse_chars s = Accept t rest -> String.length rest < String.length s.
Proof. apply (parse_chars_spec (String.length s) s). lia. Qed.

Lemma parsed_bind_total {A B} (p : parsed A) (k : A -> string -> parsed B) :
  p <> OutOfFuel -> (forall a r, p = Accept a r -> k a r <> OutOfFuel) ->
  parsed_bind p k <> OutOfFuel.
Proof. destruct p; simpl; auto. Qed.

Lemma parsed_bind_accept {A B} (p : parsed A) (k : A -> string -> parsed B) b rest :
  parsed_bind p k = Accept b rest ->
  exists a r, p = Accept a r /\ k a r = Accept b rest.
Proof. destruct p; simpl; try discriminate. eauto. Qed.

Lemma fuel_spec_holds fuel : fuel_spec fuel.
Proof.
  induction fuel as [|fuel (IHv & IHe & IHm)].
  - repeat split; simpl; intros; try lia; discriminate.
  - split; [| split]; intros s.
    + (* parse_value *)
      simpl. destruct (skip_ws s) as [|c r] eqn:Es;
        [split; [discriminate | intros; discriminate]|].
      apply skip_ws_cons in Es.
      destruct (Ascii.eqb c "[").
      { destruct (skip_ws r) as [|c' r'] eqn:Er;
          [split; [discriminate | intros; discriminate]|].
        apply skip_ws_cons in Er.
        destruct (Ascii.eqb c' "]");
          [split; [discriminate | intros v rest [= _ <-]; lia]|].
        destruct (IHe r) as [He1 He2]. split.
        - intros Hf. apply parsed_bind_total; [apply He1; lia|].
          intros; discriminate.
        - intros v rest H. apply parsed_bind_accept in H as (l & r0 & Hl & Hk).
          injection Hk as _ <-. specialize (He2 _ _ Hl). lia. }
      destruct (Ascii.eqb c "{").
      { destruct (skip_ws r) as [|c' r'] eqn:Er;
          [split; [discriminate | intros; discriminate]|].
        apply skip_ws_cons in Er.
        destruct (Ascii.eqb c' "}");
          [split; [discriminate | intros v rest [= _ <-]; lia]|].
        destruct (IHm r) as [Hm1 Hm2]. split.
        - intros Hf. apply parsed_bind_total; [apply Hm1; lia|].
          intros; discriminate.
        - intros v rest H. apply parsed_bind_accept in H as (l & r0 & Hl & Hk).
          injection Hk as _ <-. specialize (Hm2 _ _ Hl). lia. }
      destruct (Ascii.eqb c dquote).
      { split.
        - intros _. apply parsed_bind_total; [apply parse_chars_total|].
          intros; discriminate.
        - intros v rest H. apply parsed_bind_accept in H as (t & r0 & Ht & Hk).
          injection Hk as _ <-. apply parse_chars_shorter in Ht. lia. }
      destruct (Ascii.eqb c "-").
      { destruct (parse_digits_spec true r) as [H1 H2]. split; [auto|].
        intros v rest H. specialize (H2 _ _ H). lia. }
      destruct (is_digit c).
      { destruct (parse_digits_spec false (String c r)) as [H1 H2]. split; [auto|].
        intros v rest H. specialize (H2 _ _ H). simpl in H2. lia. }
      destruct (parse_literal_spec (String c r)) as [H1 H2]. split; [auto|].
      intros v rest H. specialize (H2 _ _ H). simpl in H2. lia.
    + (* parse_elements *)
      simpl. destruct (IHv s) as [Hv1 Hv2].
      assert (Hk : forall v r, parse_value fuel s = Accept v r ->
                (2 * String.length s + 2 <= S fuel ->
                 match skip_ws r with
                 | String c r' =>
                     if Ascii.eqb c ","
                     then parsed_bind (parse_elements fuel r')
                            (fun l rest => Accept (opt_cons v l) rest)
                     else if Ascii.eqb c "]" then Accept (opt_cons v (Some [])) r'
                          else Reject
                 | EmptyString => Reject
                 end <> OutOfFuel) /\
                forall l rest,
                  match skip_ws r with
                  | String c r' =>
                      if Ascii.eqb c ","
                      then parsed_bind (parse_elements fuel r')
                             (fun l rest => Accept (opt_cons v l) rest)
                      else if Ascii.eqb c "]" then Accept (opt_cons v (Some [])) r'
                           else Reject
                  | EmptyString => Reject
                  end = Accept l rest -> String.length rest < String.length s).
      { intros v r Hv. specialize (Hv2 _ _ Hv).
        destruct (skip_ws r) as [|c r'] eqn:Er;
          [split; [discriminate | intros; discriminate]|].
        apply skip_ws_cons in Er.
        destruct (Ascii.eqb c ",").
        - destruct (IHe r') as [He1 He2]. split.
          + intros Hf. apply parsed_bind_total; [apply He1; lia|].
            intros; discriminate.
          + intros l rest H. apply parsed_bind_accept in H as (l0 & r0 & Hl & Hk).
            injection Hk as _ <-. specialize (He2 _ _ Hl). lia.
        - destruct (Ascii.eqb c "]");
            [split; [discriminate | intros l rest [= _ <-]; lia]|].
          split; [discriminate | intros; discriminate]. }
      split.
      * intros Hf. apply parsed_bind_total; [apply Hv1; lia|].
        intros v r Hv. now apply (Hk v r Hv).
      * intros l rest H. apply parsed_bind_accept in H as (v & r & Hv & Hkk).
        now apply (Hk v r Hv) in Hkk.
    + (* parse_members *)
      simpl. destruct (skip_ws s) as [|q r] eqn:Es;
        [split; [discriminate | intros; discriminate]|].
      apply skip_ws_cons in Es.
      destruct (Ascii.eqb q dquote); [| split; [discriminate | intros; discriminate]].
      set (after_key := fun (k : option string) (r1 : string) =>
             match skip_ws r1 with
             | String c r2 =>
                 if Ascii.eqb c ":" then
                   parsed_bind (parse_value fuel r2) (fun v r3 =>
                     match skip_ws r3 with
                     | String c' r4 =>
                         if Ascii.eqb c' "," then
                           parsed_bind (parse_members fuel r4)
                             (fun m rest => Accept (opt_cons (opt_pair k v) m) rest)
                         else if Ascii.eqb c' "}" then
                           Accept (opt_cons (opt_pair k v) (Some [])) r4
                         else Reject
                     | EmptyString => Reject
                     end)
                 else Reject
             | EmptyString => Reject
             end).
      assert (Hk : forall k r1, parse_chars r = Accept k r1 ->
                (2 * String.length s + 2 <= S fuel -> after_key k r1 <> OutOfFuel) /\
                forall m rest, after_key k r1 = Accept m rest ->
                  String.length rest < String.length s).
      { intros k r1 Hkey. apply parse_chars_shorter in Hkey. unfold after_key.
        destruct (skip_ws r1) as [|c r2] eqn:E1;
          [split; [discriminate | intros; discriminate]|].
        apply skip_ws_cons in E1.
        destruct (Ascii.eqb c ":"); [| split; [discriminate | intros; discriminate]].
        destruct (IHv r2) as [Hv1 Hv2].
        assert (Hk3 : forall v r3, parse_value fuel r2 = Accept v r3 ->
                  (2 * String.length s + 2 <= S fuel ->
                   match skip_ws r3 with
                   | String c' r4 =>
                       if Ascii.eqb c' "," then
                         parsed_bind (parse_members fuel r4)
                           (fun m rest => Accept (opt_cons (opt_pair k v) m) rest)
                       else if Ascii.eqb c' "}" then
                         Accept (opt_cons (opt_pair k v) (Some [])) r4
                       else Reject
                   | EmptyString => Reject
                   end <> OutOfFuel) /\
                  forall m rest,
                    match skip_ws r3 with
                    | String c' r4 =>
                        if Ascii.eqb c' "," then
                          parsed_bind (parse_members fuel r4)
                            (fun m rest => Accept (opt_cons (opt_pair k v) m) rest)
                        else if Ascii.eqb c' "}" then
                          Accept (opt_cons (opt_pair k v) (Some [])) r4
                        else Reject
                    | EmptyString => Reject
                    end = Accept m rest -> String.length rest < String.length s).
        { intros v r3 Hv. specialize (Hv2 _ _ Hv).
          destruct (skip_ws r3) as [|c' r4] eqn:E3;
            [split; [discriminate | intros; discriminate]|].
          apply skip_ws_cons in E3.
          destruct (Ascii.eqb c' ",").
          - destruct (IHm r4) as [Hm1 Hm2]. split.
            + intros Hf. apply parsed_bind_total; [apply Hm1; lia|].
              intros; discriminate.
            + intros m rest H. apply parsed_bind_accept in H as (m0 & r0 & Hm & Hkk).
              injection Hkk as _ <-. specialize (Hm2 _ _ Hm). lia.
          - destruct (Ascii.eqb c' "}");
              [split; [discriminate | intros m rest [= _ <-]; lia]|].
            split; [discriminate | intros; discriminate]. }
        split.
        - intros Hf. apply parsed_bind_total; [apply Hv1; lia|].
          intros v r3 Hv. now apply (Hk3 v r3 Hv).
        - intros m rest H. apply parsed_bind_accept in H as (v & r3 & Hv & Hkk).
          now apply (Hk3 v r3 Hv) in Hkk. }
      fold after_key. split.
      * intros Hf. apply parsed_bind_total; [apply parse_chars_total|].
        intros k r1 Hkey. now apply (Hk k r1 Hkey).
      * intros m rest H. apply parsed_bind_accept in H as (k & r1 & Hkey & Hkk).
        now apply (Hk k r1 Hkey) in Hkk.
Qed.

(** [JSON_parse] has the fuel it needs on every text: a SyntaxError is a
    text the grammar rejects, never a lack of fuel. *)
Theorem enough_fuel text : parse_value (fuel_for text) text <> OutOfFuel.
Proof.
  destruct (fuel_spec_holds (fuel_for text)) as (Hv & _ & _).
  apply (Hv text). unfold fuel_for. lia.
Qed.

(** ** Every text that [JSON_stringify] gives is accepted *)

Lemma parse_digits_any negative p rest :
  boundary rest = true ->
  exists r,
    parse_digits negative (NilZero.string_of_uint (Pos.to_uint p) +:+ rest)
    = Accept r rest.
Proof.
  intros Hb. unfold parse_digits.
  destruct (digits_of_pos p) as (d & ds & E & Hd & Hds & Hnz).
  rewrite span_digits_append; [| rewrite E; simpl; now rewrite Hd | exact Hb].
  rewrite (parse_fraction_boundary rest Hb), (parse_exponent_boundary rest Hb).
  rewrite E. rewrite Hnz. simpl andb. cbv iota. eauto.
Qed.

Lemma accepts_number z : accepts_text 1 (Number_toString z).
Proof.
  destruct z as [|p|p].
  - repeat split; simpl; [lia|]. intros [|fuel] rest Hf Hb; [lia|].
    simpl. unfold parse_digits. simpl.
    rewrite (span_digits_boundary rest Hb).
    rewrite (parse_fraction_boundary rest Hb), (parse_exponent_boundary rest Hb).
    eauto.
  - destruct (digits_of_pos p) as (d & ds & E & Hd & Hds & Hnz).
    unfold Number_toString. change (N.to_uint (N.pos p)) with (Pos.to_uint p).
    destruct (digit_branches d Hd) as (Hw & H1 & H2 & H3 & H4 & H5).
    repeat split.
    + rewrite E. simpl. now rewrite Hw, H5.
    + rewrite E. simpl. lia.
    + intros [|fuel] rest Hf Hb; [lia|].
      destruct (parse_digits_any false p rest Hb) as [r Hp]. exists r.
      rewrite E in Hp |- *. simpl String.append in Hp |- *.
      rewrite parse_value_S by exact Hw.
      now rewrite H1, H2, H3, H4, Hd.
  - unfold Number_toString. change (N.to_uint (N.pos p)) with (Pos.to_uint p).
    repeat split; simpl; [lia|].
    intros [|fuel] rest Hf Hb; [lia|].
    rewrite parse_value_S by reflexivity. simpl.
    apply (parse_digits_any true p rest Hb).
Qed.

Lemma accepts_string s : accepts_text 1 (QuoteJSONString s).
Proof.
  repeat split; simpl; [lia|].
  intros [|fuel] rest Hf Hb; [lia|].
  unfold QuoteJSONString. simpl String.append.
  rewrite parse_value_S by reflexivity. simpl.
  rewrite append_assoc. simpl String.append.
  rewrite parse_chars_escape_all. simpl. eauto.
Qed.

Lemma accepts_elements l :
  Forall (fun e => accepts_text (text_size e) (element_text e)) l -> l <> [] ->
  head_plain (join_comma (List.map element_text l)) = true /\
  elements_text_size l <= S (String.length (join_comma (List.map element_text l))) /\
  forall fuel rest, elements_text_size l <= fuel ->
    exists r,
      parse_elements fuel (join_comma (List.map element_text l) +:+ String "]" rest)
      = Accept r rest.
Proof.
  induction 1 as [|e l He Hl IH]; [congruence|]. intros _.
  destruct He as (Hh & Hlen & Hp).
  change (elements_text_size (e :: l)) with (S (text_size e + elements_text_size l)).
  destruct l as [|e' l'].
  - change (elements_text_size []) with 0. simpl. split; [exact Hh|]. split; [lia|].
    intros [|fuel] rest Hf; [lia|].
    simpl parse_elements.
    destruct (Hp fuel (String "]" rest)) as [r Hr]; [lia | reflexivity |].
    rewrite Hr. simpl. eauto.
  - destruct IH as (Hh' & Hlen' & Hp'); [congruence|].
    change (List.map element_text (e :: e' :: l'))
      with (element_text e :: List.map element_text (e' :: l')).
    rewrite join_comma_cons by discriminate.
    set (J := join_comma (List.map element_text (e' :: l'))) in *.
    set (n := elements_text_size (e' :: l')) in *.
    split; [| split].
    + destruct (element_text e); [discriminate | exact Hh].
    + rewrite length_append. simpl String.length. lia.
    + intros [|fuel] rest Hf; [lia|].
      rewrite append_assoc. simpl String.append.
      simpl parse_elements.
      destruct (Hp fuel (String "," (J +:+ String "]" rest))) as [r Hr];
        [lia | reflexivity |].
      rewrite Hr. simpl.
      destruct (Hp' fuel rest) as [r' Hr']; [lia|].
      rewrite Hr'. simpl. eauto.
Qed.

Lemma accepts_members ms :
  Forall (fun kv => accepts_text (text_size (snd kv)) (element_text (snd kv))) ms ->
  ms <> [] ->
  (exists y, join_comma (List.map property_text ms) = String dquote y) /\
  members_text_size ms <= S (String.length (join_comma (List.map property_text ms))) /\
  forall fuel rest, members_text_size ms <= fuel ->
    exists r,
      parse_members fuel (join_comma (List.map property_text ms) +:+ String "}" rest)
      = Accept r rest.
Proof.
  induction 1 as [|[k v] ms Hv Hm IH]; [congruence|]. intros _.
  simpl snd in Hv. destruct Hv as (Hh & Hlen & Hp).
  change (members_text_size ((k, v) :: ms))
    with (S (text_size v + members_text_size ms)).
  destruct ms as [|kv' ms'].
  - change (members_text_size []) with 0. simpl List.map. simpl join_comma.
    split; [| split].
    + eexists. unfold property_text, QuoteJSONString. simpl. reflexivity.
    + unfold property_text, QuoteJSONString. simpl.
      rewrite ?length_append; simpl; rewrite ?length_append; simpl; lia.
    + intros [|fuel] rest Hf; [lia|].
      rewrite property_text_eq. simpl parse_members.
      rewrite parse_chars_escape_all. simpl.
      destruct (Hp fuel (String "}" rest)) as [r Hr]; [lia | reflexivity |].
      rewrite Hr. simpl. eauto.
  - destruct IH as (Hh' & Hlen' & Hp'); [congruence|].
    change (List.map property_text ((k, v) :: kv' :: ms'))
      with (property_text (k, v) :: List.map property_text (kv' :: ms')).
    rewrite join_comma_cons by discriminate.
    set (J := join_comma (List.map property_text (kv' :: ms'))) in *.
    set (n := members_text_size (kv' :: ms')) in *.
    split; [| split].
    + eexists. unfold property_text, QuoteJSONString. simpl. reflexivity.
    + unfold property_text, QuoteJSONString. simpl.
      rewrite ?length_append; simpl; rewrite ?length_append; simpl; lia.
    + intros [|fuel] rest Hf; [lia|].
      rewrite append_assoc, property_text_eq. simpl parse_members.
      rewrite parse_chars_escape_all. simpl.
      destruct (Hp fuel (String "," (J +:+ String "}" rest))) as [r Hr];
        [lia | reflexivity |].
      rewrite Hr. simpl.
      destruct (Hp' fuel rest) as [r' Hr']; [lia|].
      rewrite Hr'. simpl. eauto.
Qed.

Lemma flat_map_has_text m :
  List.flat_map member_text m = List.map property_text (List.filter has_text m).
Proof.
  induction m as [|kv m IH]; simpl; [reflexivity|].
  rewrite IH. unfold member_text, has_text.
  destruct (JSON_stringify (snd kv)) as [t|] eqn:E; simpl; [| reflexivity].
  f_equal. unfold property_text, element_text. now rewrite E.
Qed.

Lemma text_size_object m :
  text_size (JSObject m) = S (members_text_size (List.filter has_text m)).
Proof.
  simpl. f_equal. unfold members_text_size.
  induction m as [|kv m IH]; simpl; [reflexivity|].
  unfold has_text at 1. destruct (JSON_stringify (snd kv)); simpl; now rewrite IH.
Qed.

Lemma Forall_filter_keep {A} (P : A -> Prop) (f : A -> bool) l :
  Forall P l -> Forall P (List.filter f l).
Proof.
  induction 1 as [|x l Hx Hl IH]; simpl; [constructor|].
  destruct (f x); [now constructor | exact IH].
Qed.

(** The parser accepts the text of every value, and the text [null] in the
    place of a value without one. *)
Lemma accepts_element v : accepts_text (text_size v) (element_text v).
Proof.
  induction v as [| |b|z|s|l IH|m IH] using JSValue_ind.
  - repeat split; simpl; [lia|]. intros [|fuel] rest Hf Hb; [lia | simpl; eauto].
  - repeat split; simpl; [lia|]. intros [|fuel] rest Hf Hb; [lia | simpl; eauto].
  - destruct b; (repeat split; simpl; [lia|]);
      intros [|fuel] rest Hf Hb; (lia || (simpl; eauto)).
  - apply accepts_number.
  - apply accepts_string.
  - unfold element_text. rewrite stringify_array.
    destruct l as [|e l'].
    + repeat split; simpl; [lia|]. intros [|fuel] rest Hf Hb; [lia | simpl; eauto].
    + destruct (accepts_elements (e :: l') IH) as (Hh & Hlen & Hp); [congruence|].
      set (J := join_comma (List.map element_text (e :: l'))) in *.
      unfold accepts_text.
      change (text_size (JSArray (e :: l'))) with (S (elements_text_size (e :: l'))).
      set (n := elements_text_size (e :: l')) in *. clearbody J n.
      split; [reflexivity|]. split.
      * simpl. rewrite length_append. simpl. lia.
      * intros [|fuel] rest Hf Hb; [lia|].
        simpl String.append. rewrite append_assoc. simpl String.append.
        rewrite parse_value_S by reflexivity. simpl Ascii.eqb. cbv iota.
        destruct (skip_ws_head_plain J (String "]" rest) Hh) as (c & r & E1 & E2 & Hw & Hc).
        rewrite E2, Hc.
        destruct (Hp fuel rest) as [r' Hr']; [lia|].
        rewrite Hr'. simpl. unfold mk_array. eauto.
  - unfold element_text. rewrite stringify_object, flat_map_has_text, text_size_object.
    pose proof (Forall_filter_keep _ has_text m IH) as IH'.
    destruct (List.filter has_text m) as [|kv ms'].
    + change (members_text_size []) with 0.
      repeat split; simpl; [lia|]. intros [|fuel] rest Hf Hb; [lia | simpl; eauto].
    + destruct (accepts_members (kv :: ms') IH') as ((y & Hy) & Hlen & Hp); [congruence|].
      set (J := join_comma (List.map property_text (kv :: ms'))) in *.
      unfold accepts_text.
      set (n := members_text_size (kv :: ms')) in *. clearbody J n.
      split; [reflexivity|]. split.
      * simpl. rewrite length_append. simpl. lia.
      * intros [|fuel] rest Hf Hb; [lia|].
        simpl String.append. rewrite append_assoc. simpl String.append.
        rewrite parse_value_S by reflexivity. simpl Ascii.eqb. cbv iota.
        destruct (Hp fuel rest) as [r' Hr']; [lia|].
        rewrite Hr', Hy. simpl. unfold mk_object. eauto.
Qed.

(** [JSON.parse] never throws on a text that [JSON.stringify] gave. *)
Lemma JSON_parse_accepts_stringify v t :
  JSON_stringify v = Some t -> exists r, JSON_parse t = Returns r.
Proof.
  intros E. pose proof (accepts_element v) as (Hh & Hlen & Hp).
  unfold element_text in *. rewrite E in *.
  destruct (Hp (fuel_for t) EmptyString) as [r Hr];
    [unfold fuel_for; lia | reflexivity |].
  rewrite append_nil_r in Hr. unfold JSON_parse. rewrite Hr. simpl. eauto.
Qed.

Example stringify_object_example :
  JSON_stringify
    (JSObject [("mode", JSString "dark"); ("gone", JSUndefined);
               ("sizes", JSArray [JSNumber 12; JSUndefined; JSNumber (-5)])])
  = Some (jsontext "{'mode':'dark','sizes':[12,null,-5]}").
Proof. reflexivity. Qed.

Example parse_object_example :
  JSON_parse (jsontext " { 'mode' : 'dark' , 'sizes' : [ 12 , null ] } ")
  = Returns (Known (JSObject [("mode", JSString "dark");
                              ("sizes", JSArray [JSNumber 12; JSNull])])).
Proof. reflexivity. Qed.

Example parse_rejects :
  List.map JSON_parse
    [EmptyString; "undefined"; "{"; "01"; "-"; "[1,]"; "nul"; "null x";
     "1."; "1e"; "2e+"; ".5"; jsontext "'open"; jsontext "{'a' 1}";
     jsontext "'\x'"; jsontext "'\u12'"]
  = List.repeat ThrowsSyntaxError 16.
Proof. reflexivity. Qed.

Example parse_beyond :
  List.map JSON_parse
    ["1.5"; "1e3"; "-0"; "2.50E-3"; "9007199254740992";
     jsontext "{'a':1,'a':2}"; jsontext "{'7':1}"; jsontext "['\u2028']"]
  = List.repeat (Returns Beyond) 8.
Proof. reflexivity. Qed.

End JSONFacts.

Module StorageFacts.
Import JSON LocalStorage.

(** ** The helpers, state by state *)

(** Case analysis on the state of the storage of the world [w]. *)
Ltac storage_cases w :=
  let items := fresh "items" in
  let log := fresh "log" in
  destruct w as [[| |items|items] log]; unfold stored in *; simpl in *.

(** Unfolding of a helper down to the operations of the host. *)
Ltac run_helper :=
  unfold getLocalStorage, setLocalStorage, try_catch, bind,
    window_localStorage_getItem, window_localStorage_setItem,
    localStorage_is_undefined; simpl.

Lemma setLocalStorage_available key data items log :
  setLocalStorage key data (mkWorld (Available items) log)
  = Return tt (mkWorld (Available (<[key := DOMString (JSON_stringify data)]> items)) log).
Proof. reflexivity. Qed.

Lemma setLocalStorage_exhausted key data items log :
  setLocalStorage key data (mkWorld (Exhausted items) log)
  = Return tt (mkWorld (Exhausted items) (log ++ [QuotaExceededError])).
Proof. reflexivity. Qed.

Lemma setLocalStorage_undefined key data log :
  setLocalStorage key data (mkWorld Undefined log) = Return tt (mkWorld Undefined log).
Proof. reflexivity. Qed.

Lemma setLocalStorage_forbidden key data log :
  setLocalStorage key data (mkWorld Forbidden log)
  = Return tt (mkWorld Forbidden (log ++ [SecurityError])).
Proof. reflexivity. Qed.

(** [setLocalStorage] returns in every world: nothing is thrown to the
    caller. *)
Lemma setLocalStorage_returns key data w :
  exists w', setLocalStorage key data w = Return tt w'.
Proof. destruct w as [[| |items|items] log]; eexists; reflexivity. Qed.

Lemma getLocalStorage_undefined key initialValue log :
  getLocalStorage key initialValue (mkWorld Undefined log)
  = Return (Known initialValue) (mkWorld Undefined log).
Proof. reflexivity. Qed.

Lemma getLocalStorage_forbidden key initialValue log :
  getLocalStorage key initialValue (mkWorld Forbidden log)
  = Return (Known initialValue) (mkWorld Forbidden (log ++ [SecurityError])).
Proof. reflexivity. Qed.

(** A truthy [storedData] is parsed; the storage, full or not, is left as
    it is. *)
Lemma getLocalStorage_truthy key initialValue w text :
  truthy (stored w key) = Some text ->
  getLocalStorage key initialValue w =
    match JSON_parse text with
    | Returns r => Return r w
    | ThrowsSyntaxError =>
        Return (Known initialValue)
          (mkWorld (localStorage w) (console w ++ [SyntaxError]))
    end.
Proof.
  storage_cases w; try discriminate;
    intros H; run_helper; rewrite H;
    unfold JSON_parse_call; destruct (JSON_parse text); reflexivity.
Qed.

(** A falsy [storedData] makes the helper write [initialValue]. *)
Lemma getLocalStorage_falsy_available key initialValue items log :
  truthy (items !! key) = None ->
  getLocalStorage key initialValue (mkWorld (Available items) log)
  = Return (Known initialValue)
      (mkWorld (Available (<[key := DOMString (JSON_stringify initialValue)]> items)) log).
Proof. intros H. run_helper. rewrite H. reflexivity. Qed.

Lemma getLocalStorage_falsy_exhausted key initialValue items log :
  truthy (items !! key) = None ->
  getLocalStorage key initialValue (mkWorld (Exhausted items) log)
  = Return (Known initialValue) (mkWorld (Exhausted items) (log ++ [QuotaExceededError])).
Proof. intros H. run_helper. rewrite H. reflexivity. Qed.

Lemma truthy_Some o text : truthy o = Some text <-> o = Some text /\ text <> EmptyString.
Proof.
  destruct o as [t|]; simpl.
  - destruct (String.eqb_spec t EmptyString) as [->|Hne]; split.
    + intros H; discriminate H.
    + intros [H1 H2]. congruence.
    + intros H. injection H as ->. auto.
    + intros [H1 _]. exact H1.
  - split; [intros H | intros [H _]]; discriminate H.
Qed.

Lemma truthy_None o : truthy o = None <-> o = None \/ o = Some EmptyString.
Proof.
  destruct o as [t|]; simpl.
  - destruct (String.eqb_spec t EmptyString) as [->|Hne]; split.
    + auto.
    + reflexivity.
    + intros H; discriminate H.
    + intros [H|H]; [discriminate H | congruence].
  - split; auto.
Qed.

(** [getLocalStorage] returns in every world, and what it does to the
    storage is at most a write under its key. *)
Lemma getLocalStorage_returns key initialValue w :
  exists r w',
    getLocalStorage key initialValue w = Return r w' /\
    (localStorage w' = localStorage w \/
     exists items,
       localStorage w = Available items /\
       localStorage w'
       = Available (<[key := DOMString (JSON_stringify initialValue)]> items)).
Proof.
  destruct (truthy (stored w key)) as [text|] eqn:Ht.
  - rewrite (getLocalStorage_truthy _ _ _ _ Ht).
    destruct (JSON_parse text); eexists _, _; (split; [reflexivity|]); left; reflexivity.
  - storage_cases w.
    + eexists _, _. split; [reflexivity|]. left; reflexivity.
    + eexists _, _. split; [reflexivity|]. left; reflexivity.
    + rewrite getLocalStorage_falsy_exhausted by exact Ht.
      eexists _, _. split; [reflexivity|]. left; reflexivity.
    + rewrite getLocalStorage_falsy_available by exact Ht.
      eexists _, _. split; [reflexivity|]. right. eauto.
Qed.

(** ** Writes leave the other keys alone *)

Lemma stored_setLocalStorage key data w key' :
  key' <> key ->
  exists w', setLocalStorage key data w = Return tt w' /\
    stored w' key' = stored w key'.
Proof.
  intros Hne. destruct w as [[| |items|items] log]; eexists; (split; [reflexivity|]);
    unfold stored; simpl; try reflexivity.
  apply lookup_insert_ne. congruence.
Qed.

Lemma stored_getLocalStorage key initialValue w key' :
  key' <> key ->
  exists r w', getLocalStorage key initialValue w = Return r w' /\
    stored w' key' = stored w key'.
Proof.
  intros Hne.
  destruct (getLocalStorage_returns key initialValue w) as (r & w' & Hget & Hst).
  exists r, w'. split; [exact Hget|]. unfold stored.
  destruct Hst as [-> | (items & -> & ->)]; [reflexivity|].
  apply lookup_insert_ne. congruence.
Qed.

Lemma write_all_available writes items log :
  exists items',
    write_all writes (mkWorld (Available items) log)
    = Return tt (mkWorld (Available items') log) /\
    forall key, Forall (fun kv => fst kv <> key) writes -> items' !! key = items !! key.
Proof.
  revert items. induction writes as [|[k d] writes IH]; intros items.
  - exists items. split; [reflexivity | auto].
  - destruct (IH (<[k := DOMString (JSON_stringify d)]> items)) as (items' & Hrun & Hkeep).
    exists items'. split.
    + simpl. unfold bind. rewrite setLocalStorage_available. exact Hrun.
    + intros key Hall. inversion Hall as [|? ? Hk Hrest]; subst. simpl in Hk.
      rewrite (Hkeep key Hrest). apply lookup_insert_ne. exact Hk.
Qed.

(** A stored text that some serializable value wrote is read back as that
    value. *)
Lemma getLocalStorage_reads key initialValue w v :
  serializable v = true ->
  stored w key = JSON_stringify v ->
  getLocalStorage key initialValue w = Return (Known v) w.
Proof.
  intros Hs Hst.
  destruct (JSONFacts.JSON_parse_stringify v Hs) as (t & Et & Hne & Hp).
  rewrite Et in Hst.
  assert (Ht : truthy (stored w key) = Some t) by (apply truthy_Some; auto).
  rewrite (getLocalStorage_truthy _ _ _ _ Ht), Hp. reflexivity.
Qed.

(** ** The claims on the local cache helper *)

(** C1. Read after write: with the storage available, [getLocalStorage k]
    returns the serializable value [v] that [setLocalStorage k v] wrote,
    whatever the fallback, also after writes under other keys. *)
Theorem read_after_write (k : string) (v fallback : JSValue)
    (writes : list (string * JSValue)) (w : World) (items : gmap string string) :
  localStorage w = Available items ->
  serializable v = true ->
  Forall (fun kv => fst kv <> k) writes ->
  exists w1 w2,
    setLocalStorage k v w = Return tt w1 /\
    write_all writes w1 = Return tt w2 /\
    getLocalStorage k fallback w2 = Return (Known v) w2.
Proof.
  intros Hw Hs Hother. destruct w as [st log]. simpl in Hw. subst st.
  destruct (write_all_available writes
              (<[k := DOMString (JSON_stringify v)]> items) log)
    as (items' & Hrun & Hkeep).
  eexists _, _. split; [apply setLocalStorage_available|]. split; [exact Hrun|].
  apply getLocalStorage_reads; [exact Hs|].
  unfold stored; simpl. rewrite (Hkeep k Hother), lookup_insert_eq.
  destruct (JSONFacts.JSON_parse_stringify v Hs) as (t & -> & _). reflexivity.
Qed.

Lemma read_after_write_witness :
  let w := mkWorld (Available ∅) [] in
  let v := JSObject [("mode", JSString "dark"); ("sizes", JSArray [JSNumber 12; JSNull])] in
  localStorage w = Available ∅ /\
  serializable v = true /\
  Forall (fun kv => fst kv <> "theme") [("lang", JSString "en")] /\
  exists w1 w2,
    setLocalStorage "theme" v w = Return tt w1 /\
    write_all [("lang", JSString "en")] w1 = Return tt w2 /\
    getLocalStorage "theme" JSNull w2 = Return (Known v) w2.
Proof.
  assert (H : Forall (fun kv : string * JSValue => fst kv <> "theme") [("lang", JSString "en")]).
  { repeat constructor. simpl. discriminate. }
  split; [reflexivity|]. split; [reflexivity|]. split; [exact H|].
  apply (read_after_write "theme" _ JSNull _ _ ∅); [reflexivity | reflexivity | exact H].
Defined.

(** C2, as amended. A stored text that is not empty and does not parse
    makes [getLocalStorage] log the error and return the fallback; nothing
    is thrown and the storage is left as it is, the text included. *)
Theorem corrupted_value_falls_back (k : string) (fallback : JSValue) (w : World)
    (text : string) :
  stored w k = Some text ->
  text <> EmptyString ->
  JSON_parse text = ThrowsSyntaxError ->
  getLocalStorage k fallback w
  = Return (Known fallback) (mkWorld (localStorage w) (console w ++ [SyntaxError])).
Proof.
  intros Hst Hne Hp.
  assert (Ht : truthy (stored w k) = Some text) by (apply truthy_Some; auto).
  rewrite (getLocalStorage_truthy _ _ _ _ Ht), Hp. reflexivity.
Qed.

Lemma corrupted_value_falls_back_witness :
  let w := mkWorld (Available (<["theme" := "{"]> ∅)) [] in
  stored w "theme" = Some "{" /\
  "{" <> EmptyString /\
  JSON_parse "{" = ThrowsSyntaxError /\
  getLocalStorage "theme" (JSString "light") w
  = Return (Known (JSString "light"))
      (mkWorld (localStorage w) (console w ++ [SyntaxError])).
Proof.
  split; [reflexivity|]. split; [discriminate|]. split; [reflexivity|].
  apply (corrupted_value_falls_back "theme" (JSString "light") _ "{");
    [reflexivity | discriminate | reflexivity].
Defined.

(** C2 as stated fails: the corrupted text stays under the key, the
    fallback is not written. *)
Lemma corrupted_value_is_kept :
  let w := mkWorld (Available (<["theme" := "{"]> ∅)) [] in
  stored w "theme" = Some "{" /\
  JSON_parse "{" = ThrowsSyntaxError /\
  JSON_stringify (JSString "light") = Some (jsontext "'light'") /\
  ~ (exists w', getLocalStorage "theme" (JSString "light") w
                = Return (Known (JSString "light")) w' /\
                stored w' "theme" = Some (jsontext "'light'")).
Proof.
  split; [reflexivity|]. split; [reflexivity|]. split; [reflexivity|].
  intros (w' & Hget & Hst).
  rewrite (getLocalStorage_truthy "theme" _ _ "{") in Hget by reflexivity.
  change (JSON_parse "{") with ThrowsSyntaxError in Hget.
  injection Hget as <-. vm_compute in Hst. discriminate Hst.
Qed.

(** C3, as amended. The first read seeds the storage: for a key without a
    stored value, [getLocalStorage] returns the fallback and, when the
    fallback is serializable, stores its text, so that a later read with
    any other fallback returns the first one. *)
Theorem first_read_seeds (k : string) (fallback anythingElse : JSValue) (w : World)
    (items : gmap string string) :
  localStorage w = Available items ->
  items !! k = None ->
  serializable fallback = true ->
  exists w',
    getLocalStorage k fallback w = Return (Known fallback) w' /\
    stored w' k = JSON_stringify fallback /\
    getLocalStorage k anythingElse w' = Return (Known fallback) w'.
Proof.
  intros Hw Hk Hs. destruct w as [st log]. simpl in Hw. subst st.
  eexists. split.
  - apply getLocalStorage_falsy_available. now rewrite Hk.
  - assert (Hst : stored (mkWorld (Available
               (<[k := DOMString (JSON_stringify fallback)]> items)) log) k
             = JSON_stringify fallback).
    { unfold stored; simpl. rewrite lookup_insert_eq.
      destruct (JSONFacts.JSON_parse_stringify fallback Hs) as (t & -> & _). reflexivity. }
    split; [exact Hst|]. now apply getLocalStorage_reads.
Qed.

Lemma first_read_seeds_witness :
  let w := mkWorld (Available ∅) [] in
  localStorage w = Available ∅ /\
  (∅ : gmap string string) !! "theme" = None /\
  serializable (JSString "dark") = true /\
  exists w',
    getLocalStorage "theme" (JSString "dark") w = Return (Known (JSString "dark")) w' /\
    stored w' "theme" = JSON_stringify (JSString "dark") /\
    getLocalStorage "theme" (JSString "light") w' = Return (Known (JSString "dark")) w'.
Proof.
  split; [reflexivity|]. split; [reflexivity|]. split; [reflexivity|].
  apply (first_read_seeds "theme" (JSString "dark") (JSString "light") _ ∅);
    reflexivity.
Defined.

(** C3 as stated fails for a fallback that has no JSON text: [undefined]
    is stored as the text [undefined], which the next read cannot parse, so
    the next read returns its own fallback. *)
Lemma undefined_fallback_is_not_read_back :
  let w := mkWorld (Available ∅) [] in
  (∅ : gmap string string) !! "theme" = None /\
  exists w',
    getLocalStorage "theme" JSUndefined w = Return (Known JSUndefined) w' /\
    stored w' "theme" = Some "undefined" /\
    getLocalStorage "theme" (JSString "light") w'
    = Return (Known (JSString "light")) (mkWorld (localStorage w') [SyntaxError]) /\
    forall w'', getLocalStorage "theme" (JSString "light") w'
                <> Return (Known JSUndefined) w''.
Proof.
  split; [reflexivity|]. eexists. split; [reflexivity|]. split; [reflexivity|].
  split; [reflexivity|]. intros w'' H. vm_compute in H. discriminate H.
Qed.

(** C4. Without storage ([localStorage] undefined, or every access
    throwing) [setLocalStorage] returns and leaves the storage as it is,
    and [getLocalStorage] returns the fallback and leaves the storage as it
    is. *)
Theorem unavailable_storage (k : string) (data fallback : JSValue) (w : World) :
  unavailable (localStorage w) = true ->
  (exists w', setLocalStorage k data w = Return tt w' /\
              localStorage w' = localStorage w) /\
  (exists w', getLocalStorage k fallback w = Return (Known fallback) w' /\
              localStorage w' = localStorage w).
Proof.
  destruct w as [[| |items|items] log]; simpl; intros H; try discriminate H;
    split; eexists; split; reflexivity.
Qed.

Lemma unavailable_storage_witness :
  let w := mkWorld Forbidden [] in
  unavailable (localStorage w) = true /\
  (exists w', setLocalStorage "theme" (JSString "dark") w = Return tt w' /\
              localStorage w' = localStorage w) /\
  (exists w', getLocalStorage "theme" (JSString "light") w
              = Return (Known (JSString "light")) w' /\
              localStorage w' = localStorage w).
Proof.
  split; [reflexivity|].
  apply (unavailable_storage "theme" (JSString "dark") (JSString "light")). reflexivity.
Defined.

(** When only [setItem] throws, a write is dropped as well. *)
Lemma exhausted_storage_write k data items log :
  exists w', setLocalStorage k data (mkWorld (Exhausted items) log) = Return tt w' /\
             localStorage w' = Exhausted items.
Proof. eexists. split; reflexivity. Qed.

(** C10. Frame: a call for the key [k] returns and leaves the string stored
    under any other key as it is, in every state of the storage. *)
Theorem other_keys_untouched (k k' : string) (data fallback : JSValue) (w : World) :
  k' <> k ->
  (exists w', setLocalStorage k data w = Return tt w' /\
              stored w' k' = stored w k') /\
  (exists r w', getLocalStorage k fallback w = Return r w' /\
                stored w' k' = stored w k').
Proof.
  intros Hne. split.
  - now apply stored_setLocalStorage.
  - now apply stored_getLocalStorage.
Qed.

Lemma other_keys_untouched_witness :
  let w := mkWorld (Available (<["lang" := jsontext "'en'"]> ∅)) [] in
  "lang" <> "theme" /\
  (exists w', setLocalStorage "theme" (JSString "dark") w = Return tt w' /\
              stored w' "lang" = stored w "lang") /\
  (exists r w', getLocalStorage "theme" (JSString "light") w = Return r w' /\
                stored w' "lang" = stored w "lang").
Proof.
  split; [discriminate|].
  apply (other_keys_untouched "theme" "lang" (JSString "dark") (JSString "light")).
  discriminate.
Defined.

End StorageFacts.

Module ScrollFacts.
Import Scroll.

Lemma clamp_within lo hi x : (lo <= x)%Q -> (x <= hi)%Q -> (clamp lo hi x == x)%Q.
Proof.
  intros Hlo Hhi. unfold clamp.
  destruct (Qle_bool x lo) eqn:E1.
  - apply Qle_bool_iff in E1. now apply Qle_antisym.
  - destruct (Qle_bool hi x) eqn:E2; [| reflexivity].
    apply Qle_bool_iff in E2. now apply Qle_antisym.
Qed.

Lemma ratio_range offset maxOffset :
  (0 <= offset <= maxOffset)%Z -> (0 < maxOffset)%Z ->
  (0 <= inject_Z offset / inject_Z maxOffset * 100 <= 100)%Q.
Proof.
  intros [H0 H1] Hpos. destruct maxOffset as [|p|p]; try lia.
  unfold Qle, Qdiv, Qmult, Qinv, inject_Z; simpl. split; nia.
Qed.

Lemma ratio_full maxOffset :
  (0 < maxOffset)%Z -> (inject_Z maxOffset / inject_Z maxOffset * 100 == 100)%Q.
Proof.
  intros Hpos. destruct maxOffset as [|p|p]; try lia.
  unfold Qeq, Qdiv, Qmult, Qinv, inject_Z; simpl. nia.
Qed.

(** C7. For an offset between 0 and the maximum offset the percent lies
    between 0 and 100 and is the offset over the maximum times 100, clamped
    (the clamp changes nothing there); it is 0 when the maximum offset is 0,
    where nothing is divided; and it is 100 when the offset is the maximum
    offset. The rule for a maximum of 0 comes first, so the last clause
    speaks of a maximum that is not 0. *)
Theorem scroll_percent_spec (offset maxOffset : Z) (m : positive) :
  (0 <= offset <= maxOffset)%Z ->
  (0 <= scroll_percent offset maxOffset <= 100)%Q /\
  (scroll_percent offset maxOffset ==
     if (maxOffset =? 0)%Z then 0
     else inject_Z offset / inject_Z maxOffset * 100)%Q /\
  (scroll_percent offset 0 == 0)%Q /\
  (scroll_percent (Zpos m) (Zpos m) == 100)%Q.
Proof.
  intros Hr.
  assert (Hfull : (scroll_percent (Zpos m) (Zpos m) == 100)%Q).
  { unfold scroll_percent. simpl Z.eqb. cbv iota.
    destruct (ratio_range (Zpos m) (Zpos m)) as [Ha Hb]; [lia | lia |].
    rewrite (clamp_within 0 100 _ Ha Hb). apply ratio_full. lia. }
  unfold scroll_percent at 1 2 3.
  destruct (Z.eqb_spec maxOffset 0) as [E|E].
  - split; [split; [apply Qle_refl | discriminate] |].
    split; [reflexivity|]. split; [reflexivity | exact Hfull].
  - assert (Hpos : (0 < maxOffset)%Z) by lia.
    destruct (ratio_range offset maxOffset Hr Hpos) as [Ha Hb].
    pose proof (clamp_within 0 100 _ Ha Hb) as Hc.
    split; [rewrite Hc; split; assumption|].
    split; [exact Hc|]. split; [reflexivity | exact Hfull].
Qed.

Lemma scroll_percent_spec_witness :
  (0 <= 50 <= 200)%Z /\
  (0 <= scroll_percent 50 200 <= 100)%Q /\
  (scroll_percent 50 200 ==
     if (200 =? 0)%Z then 0 else inject_Z 50 / inject_Z 200 * 100)%Q /\
  (scroll_percent 50 0 == 0)%Q /\
  (scroll_percent 200 200 == 100)%Q.
Proof.
  split; [lia|]. apply (scroll_percent_spec 50 200 200). lia.
Defined.

(** The bar of [ScrollProgress] shows the percent it is given. *)
Lemma ScrollProgress_length control length :
  ScrollProgress control length = (control, length).
Proof. reflexivity. Qed.

End ScrollFacts.

Module ContentFacts.
Import Content.

(** ** The slug *)

Lemma kept_char c :
  is_alphanumeric (lower_case c) || false = true ->
  slug_char (lower_case c) = true /\ Ascii.eqb (lower_case c) separator = false.
Proof.
  destruct c as [[] [] [] [] [] [] [] []]; vm_compute; intros H;
    first [discriminate H | split; reflexivity].
Qed.

Lemma collapse_spaces_chars in_run s :
  all_slug_chars (collapse_spaces in_run (strip_punctuation (lower_cased s))) = true.
Proof.
  revert in_run. induction s as [|c s IH]; intros in_run; [reflexivity|].
  cbn [lower_cased strip_punctuation].
  destruct (is_alphanumeric (lower_case c) || is_space (lower_case c)) eqn:E;
    [| apply IH].
  cbn [collapse_spaces]. destruct (is_space (lower_case c)) eqn:Es.
  - destruct in_run; cbn [all_slug_chars]; rewrite ?IH; reflexivity.
  - cbn [all_slug_chars]. rewrite IH, andb_true_r.
    now destruct (kept_char c E).
Qed.

Lemma collapse_spaces_single in_run s :
  single_separators (collapse_spaces in_run (strip_punctuation (lower_cased s))) = true /\
  (in_run = true ->
   forall c r, collapse_spaces in_run (strip_punctuation (lower_cased s)) = String c r ->
     Ascii.eqb c separator = false).
Proof.
  revert in_run. induction s as [|c s IH]; intros in_run.
  - split; [reflexivity | discriminate].
  - cbn [lower_cased strip_punctuation].
    destruct (is_alphanumeric (lower_case c) || is_space (lower_case c)) eqn:E;
      [| apply IH].
    cbn [collapse_spaces]. destruct (is_space (lower_case c)) eqn:Es.
    + destruct in_run; [apply IH|].
      split; [| discriminate].
      destruct (IH true) as [H1 H2]. cbn [single_separators].
      destruct (collapse_spaces true (strip_punctuation (lower_cased s))) as [|c' r'] eqn:Er;
        [reflexivity|].
      rewrite (H2 eq_refl c' r' eq_refl), andb_false_r. exact H1.
    + destruct (kept_char c E) as [_ Hc].
      destruct (IH false) as [H1 _].
      split.
      * cbn [single_separators].
        destruct (collapse_spaces false (strip_punctuation (lower_cased s)));
          [reflexivity|]. rewrite Hc. exact H1.
      * intros _ c' r' [= <- _]. exact Hc.
Qed.

(** C8. The slug of the heading [Hello, World!] is [hello-world]; and a
    slug holds lower-case letters, digits and separators only, with no two
    separators in a row. *)
Theorem slug_hello_world :
  slug "Hello, World!" = "hello-world" /\
  forall heading,
    all_slug_chars (slug heading) = true /\ single_separators (slug heading) = true.
Proof.
  split; [reflexivity|]. intros heading. split.
  - apply collapse_spaces_chars.
  - apply collapse_spaces_single.
Qed.

(** ** The article index *)

Section Index.

Variable timestamp : string -> Z.

Lemma insert_by_date_perm a l : Permutation (insert_by_date timestamp a l) (a :: l).
Proof.
  induction l as [|b l IH]; simpl; [reflexivity|].
  destruct (instant timestamp b <=? instant timestamp a)%Z; [reflexivity|].
  rewrite IH. apply perm_swap.
Qed.

Lemma sort_by_date_perm l : Permutation (sort_by_date timestamp l) l.
Proof.
  induction l as [|a l IH]; simpl; [reflexivity|].
  rewrite insert_by_date_perm. now apply perm_skip.
Qed.

Lemma insert_by_date_sorted a l :
  StronglySorted (newer_or_same timestamp) l ->
  StronglySorted (newer_or_same timestamp) (insert_by_date timestamp a l).
Proof.
  induction 1 as [|b l Hl IH Hb]; simpl.
  - repeat constructor.
  - destruct (Z.leb_spec (instant timestamp b) (instant timestamp a)) as [Hle|Hlt].
    + constructor; [now constructor|].
      constructor; [exact Hle|].
      eapply Forall_impl; [exact Hb|].
      intros c Hc. unfold newer_or_same in *. lia.
    + constructor; [exact IH|].
      eapply Permutation_Forall; [symmetry; apply insert_by_date_perm|].
      constructor; [unfold newer_or_same; lia | exact Hb].
Qed.

Lemma sort_by_date_sorted l :
  StronglySorted (newer_or_same timestamp) (sort_by_date timestamp l).
Proof.
  induction l as [|a l IH]; simpl; [constructor | now apply insert_by_date_sorted].
Qed.

Lemma sorted_instants l :
  StronglySorted (newer_or_same timestamp) l ->
  StronglySorted Z.ge (List.map (instant timestamp) l).
Proof.
  induction 1 as [|a l Hl IH Ha]; simpl; constructor; [exact IH|].
  apply List.Forall_forall. intros z Hz. apply in_map_iff in Hz as (b & <- & Hb).
  rewrite List.Forall_forall in Ha. specialize (Ha b Hb).
  unfold newer_or_same in Ha. lia.
Qed.

(** Two descending lists with the same elements are the same list. *)
Lemma descending_unique (l1 l2 : list Z) :
  StronglySorted Z.ge l1 -> StronglySorted Z.ge l2 -> Permutation l1 l2 -> l1 = l2.
Proof.
  intros H1. revert l2. induction H1 as [|x l1 Hs1 IH Hx]; intros l2 H2 Hp.
  - apply Permutation_nil in Hp. now subst.
  - destruct H2 as [|y l2 Hs2 Hy].
    + symmetry in Hp. apply Permutation_nil in Hp. discriminate Hp.
    + assert (Exy : x = y).
      { rewrite List.Forall_forall in Hx, Hy.
        assert (Hin1 : In y (x :: l1))
          by (eapply Permutation_in; [symmetry; exact Hp | now left]).
        assert (Hin2 : In x (y :: l2))
          by (eapply Permutation_in; [exact Hp | now left]).
        destruct Hin1 as [E|Hin1]; [exact E|].
        destruct Hin2 as [E|Hin2]; [now symmetry|].
        specialize (Hx y Hin1). specialize (Hy x Hin2). lia. }
      subst y. f_equal. apply IH; [exact Hs2|].
      eapply Permutation_cons_inv. exact Hp.
Qed.

Lemma generate_index_perm files :
  Permutation (generate_index timestamp files)
    (List.filter visible (List.map article files)).
Proof. apply sort_by_date_perm. Qed.

Lemma generate_index_In files a :
  In a (generate_index timestamp files) <->
  In a (List.map article files) /\ listed a = true /\ published a = true.
Proof.
  split.
  - intros H. eapply Permutation_in in H; [| apply generate_index_perm].
    apply filter_In in H as [Hin Hv]. unfold visible in Hv.
    apply andb_true_iff in Hv. tauto.
  - intros (Hin & Hl & Hp).
    eapply Permutation_in; [symmetry; apply generate_index_perm|].
    apply filter_In. split; [exact Hin|]. unfold visible. now rewrite Hl, Hp.
Qed.

Lemma filter_perm {A} (f : A -> bool) (l l' : list A) :
  Permutation l l' -> Permutation (List.filter f l) (List.filter f l').
Proof.
  induction 1 as [|x l l' Hp IH|x y l|l l' l'' H1 IH1 H2 IH2]; simpl.
  - constructor.
  - destruct (f x); [now constructor | exact IH].
  - destruct (f x), (f y); try reflexivity. apply perm_swap.
  - now transitivity (List.filter f l').
Qed.

(** C6. The index holds exactly the articles with [listed] and
    [published], in descending date order; reading the files in another
    order gives an index with the same articles and the same sequence of
    dates. *)
Theorem index_sorted_exact (files files' : list ContentFile) :
  Permutation files files' ->
  (forall a, In a (generate_index timestamp files) <->
     In a (List.map article files) /\ listed a = true /\ published a = true) /\
  Permutation (generate_index timestamp files)
    (List.filter visible (List.map article files)) /\
  StronglySorted (newer_or_same timestamp) (generate_index timestamp files) /\
  Permutation (generate_index timestamp files') (generate_index timestamp files) /\
  List.map (instant timestamp) (generate_index timestamp files')
  = List.map (instant timestamp) (generate_index timestamp files).
Proof.
  intros Hp.
  split; [apply generate_index_In|]. split; [apply generate_index_perm|].
  split; [apply sort_by_date_sorted|].
  assert (Hpi : Permutation (generate_index timestamp files')
                  (generate_index timestamp files)).
  { rewrite !generate_index_perm. apply filter_perm, Permutation_map.
    now symmetry. }
  split; [exact Hpi|].
  apply descending_unique.
  - apply sorted_instants, sort_by_date_sorted.
  - apply sorted_instants, sort_by_date_sorted.
  - now apply Permutation_map.
Qed.

Lemma find_by_path files f :
  List.NoDup (List.map path files) -> In f files ->
  List.find (fun g => String.eqb (path g) (path f)) files = Some f.
Proof.
  induction files as [|g files IH]; simpl; [intros _ []|].
  intros Hnd Hin. inversion Hnd as [|? ? Hnotin Hnd']; subst.
  destruct Hin as [->|Hin]; [now rewrite String.eqb_refl|].
  destruct (String.eqb_spec (path g) (path f)) as [E|_]; [| now apply IH].
  exfalso. apply Hnotin. rewrite E. now apply in_map.
Qed.

Lemma resolve_route_published files route a :
  resolve_route files route = Some a -> published a = true.
Proof.
  unfold resolve_route. destruct (List.find _ files) as [f|]; [| discriminate].
  destruct (published (article f)) eqn:E; [| discriminate].
  now intros [= <-].
Qed.

(** C5. An article with [published] false is in no index, its own route
    resolves to the not-found state, and no route resolves to it. *)
Theorem unpublished_excluded (files : list ContentFile) (f : ContentFile) :
  In f files ->
  List.NoDup (List.map path files) ->
  published (article f) = false ->
  ~ In (article f) (generate_index timestamp files) /\
  resolve_route files (path f) = None /\
  (forall route, resolve_route files route <> Some (article f)).
Proof.
  intros Hin Hnd Hp. split; [| split].
  - intros H. apply generate_index_In in H as (_ & _ & H). congruence.
  - unfold resolve_route. rewrite (find_by_path files f Hnd Hin), Hp. reflexivity.
  - intros route H. apply resolve_route_published in H. congruence.
Qed.

End Index.

Lemma index_sorted_exact_witness :
  let files := [draft; older; unlisted; released] in
  let files' := [released; unlisted; older; draft] in
  Permutation files files' /\
  (forall a, In a (generate_index Date_parse files) <->
     In a (List.map article files) /\ listed a = true /\ published a = true) /\
  Permutation (generate_index Date_parse files)
    (List.filter visible (List.map article files)) /\
  StronglySorted (newer_or_same Date_parse) (generate_index Date_parse files) /\
  Permutation (generate_index Date_parse files') (generate_index Date_parse files) /\
  List.map (instant Date_parse) (generate_index Date_parse files')
  = List.map (instant Date_parse) (generate_index Date_parse files).
Proof.
  assert (Hp : Permutation [draft; older; unlisted; released]
                 [released; unlisted; older; draft]).
  { apply (Permutation_rev [draft; older; unlisted; released]). }
  split; [exact Hp|].
  apply (index_sorted_exact Date_parse _ _ Hp).
Defined.

Example index_of_four_files :
  generate_index Date_parse [draft; older; unlisted; released]
  = [article released; article older].
Proof. reflexivity. Qed.

Lemma unpublished_excluded_witness :
  In draft [draft; released] /\
  List.NoDup (List.map path [draft; released]) /\
  published (article draft) = false /\
  ~ In (article draft) (generate_index Date_parse [draft; released]) /\
  resolve_route [draft; released] (path draft) = None /\
  (forall route, resolve_route [draft; released] route <> Some (article draft)).
Proof.
  assert (Hnd : List.NoDup (List.map path [draft; released])).
  { repeat constructor; simpl; intros H; decompose [or] H; try discriminate; assumption. }
  split; [now left|]. split; [exact Hnd|]. split; [reflexivity|].
  apply (unpublished_excluded Date_parse [draft; released] draft);
    [now left | exact Hnd | reflexivity].
Defined.

Example index_of_draft_and_released :
  generate_index Date_parse [draft; released] = [article released].
Proof. reflexivity. Qed.

End ContentFacts.

Module HelperFacts.
Import JSON LocalStorage StorageFacts.

(** ** More on the helpers *)

(** The text [JSON_stringify] gives is never empty, and neither is the
    string [setItem] stores. *)
Lemma JSON_stringify_nonempty v t : JSON_stringify v = Some t -> t <> EmptyString.
Proof.
  destruct v as [| |b|z|s|l|m]; simpl; intros H; try discriminate H;
    injection H as <-; try discriminate.
  - destruct b; discriminate.
  - destruct z as [|p|p]; simpl; try discriminate.
    change (N.to_uint (N.pos p)) with (Pos.to_uint p).
    destruct (JSONFacts.digits_of_pos p) as (d & ds & -> & _). discriminate.
Qed.

Lemma DOMString_nonempty v : DOMString (JSON_stringify v) <> EmptyString.
Proof.
  destruct (JSON_stringify v) as [t|] eqn:E; simpl; [| discriminate].
  now apply (JSON_stringify_nonempty v).
Qed.

Lemma truthy_DOMString v :
  truthy (Some (DOMString (JSON_stringify v))) = Some (DOMString (JSON_stringify v)).
Proof. apply truthy_Some. split; [reflexivity | apply DOMString_nonempty]. Qed.

(** X1. A call that fails changes nothing: each helper returns, and either
    logs nothing, or logs one error and leaves the storage as it was. *)
Theorem failure_leaves_storage (k : string) (data fallback : JSValue) (w : World) :
  (exists w', setLocalStorage k data w = Return tt w' /\
     (console w' = console w \/
      exists e : Error, console w' = (console w ++ [e])%list /\ localStorage w' = localStorage w)) /\
  (exists r w', getLocalStorage k fallback w = Return r w' /\
     (console w' = console w \/
      exists e : Error, console w' = (console w ++ [e])%list /\ localStorage w' = localStorage w /\
                r = Known fallback)).
Proof.
  split.
  - destruct w as [[| |items|items] log]; eexists; (split; [reflexivity|]); simpl;
      first [left; reflexivity | right; eexists; split; reflexivity].
  - destruct (truthy (stored w k)) as [text|] eqn:Ht.
    + rewrite (getLocalStorage_truthy _ _ _ _ Ht).
      destruct (JSON_parse text); eexists _, _; (split; [reflexivity|]).
      * left; reflexivity.
      * right. eexists. repeat split.
    + storage_cases w.
      * eexists _, _. split; [reflexivity|]. left; reflexivity.
      * eexists _, _. split; [reflexivity|]. right. eexists. repeat split.
      * rewrite getLocalStorage_falsy_exhausted by exact Ht.
        eexists _, _. split; [reflexivity|]. right. eexists. repeat split.
      * rewrite getLocalStorage_falsy_available by exact Ht.
        eexists _, _. split; [reflexivity|]. left; reflexivity.
Qed.

(** X2. A write is lost without a trace only when [localStorage] is
    undefined: after [setLocalStorage] the text of the data is stored under
    the key, or an error was logged, or there is no storage object. *)
Theorem lost_write_is_logged (k : string) (data : JSValue) (w : World) :
  exists w', setLocalStorage k data w = Return tt w' /\
    (stored w' k = Some (DOMString (JSON_stringify data)) /\ console w' = console w \/
     (exists e : Error, console w' = (console w ++ [e])%list) /\ stored w' k = stored w k \/
     localStorage w = Undefined /\ w' = w).
Proof.
  destruct w as [[| |items|items] log]; eexists; (split; [reflexivity|]).
  - right; right. split; reflexivity.
  - right; left. split; [eexists; reflexivity | reflexivity].
  - right; left. split; [eexists; reflexivity | reflexivity].
  - left. split; [| reflexivity]. unfold stored; simpl. apply lookup_insert_eq.
Qed.



(** X7. A stored text that parses wins over the fallback, and reading it
    changes nothing: no write, no log. This holds for any text that is JSON,
    also when the quota is used up. *)
Theorem stored_value_wins (k : string) (fallback : JSValue) (w : World)
    (text : string) (r : Read) :
  stored w k = Some text ->
  text <> EmptyString ->
  JSON_parse text = Returns r ->
  getLocalStorage k fallback w = Return r w.
Proof.
  intros Hst Hne Hp.
  assert (Ht : truthy (stored w k) = Some text) by (apply truthy_Some; auto).
  rewrite (getLocalStorage_truthy _ _ _ _ Ht), Hp. reflexivity.
Qed.

Lemma stored_value_wins_witness :
  let w := mkWorld (Exhausted (<["sizes" := " [ 12 , false ] "]> ∅)) [] in
  stored w "sizes" = Some " [ 12 , false ] " /\
  " [ 12 , false ] " <> EmptyString /\
  JSON_parse " [ 12 , false ] " = Returns (Known (JSArray [JSNumber 12; JSBoolean false])) /\
  getLocalStorage "sizes" JSNull w
  = Return (Known (JSArray [JSNumber 12; JSBoolean false])) w.
Proof.
  split; [reflexivity|]. split; [discriminate|]. split; [reflexivity|].
  apply (stored_value_wins "sizes" JSNull _ " [ 12 , false ] ");
    [reflexivity | discriminate | reflexivity].
Defined.

(** X8. A corrupted value is never repaired by reading: every read of it
    logs one more SyntaxError and leaves the storage as it is. *)
Theorem corrupted_reads_log_each_time (times : nat) (k : string) (fallback : JSValue)
    (w : World) (text : string) :
  stored w k = Some text ->
  text <> EmptyString ->
  JSON_parse text = ThrowsSyntaxError ->
  read_times times k fallback w
  = Return tt (mkWorld (localStorage w) (console w ++ List.repeat SyntaxError times)%list).
Proof.
  intros Hst Hne Hp. revert w Hst. induction times as [|n IH]; intros w Hst.
  - simpl. unfold ret. rewrite app_nil_r. now destruct w.
  - simpl read_times. unfold bind.
    assert (Ht : truthy (stored w k) = Some text) by (apply truthy_Some; auto).
    rewrite (getLocalStorage_truthy _ _ _ _ Ht), Hp.
    rewrite IH by exact Hst. simpl. now rewrite <- app_assoc.
Qed.

Lemma corrupted_reads_log_each_time_witness :
  let w := mkWorld (Available (<["theme" := "dark"]> ∅)) [] in
  stored w "theme" = Some "dark" /\
  "dark" <> EmptyString /\
  JSON_parse "dark" = ThrowsSyntaxError /\
  read_times 3 "theme" (JSString "light") w
  = Return tt (mkWorld (localStorage w)
                 (console w ++ List.repeat SyntaxError 3)%list).
Proof.
  split; [reflexivity|]. split; [discriminate|]. split; [reflexivity|].
  apply (corrupted_reads_log_each_time 3 "theme" (JSString "light") _ "dark");
    [reflexivity | discriminate | reflexivity].
Defined.

(** X9. When the quota is used up a read cannot seed: with nothing truthy
    under the key, each read logs the failed write and returns its own
    fallback, and the storage stays as it is. *)
Theorem exhausted_storage_never_seeds (k : string) (fallback1 fallback2 : JSValue)
    (w : World) (items : gmap string string) :
  localStorage w = Exhausted items ->
  truthy (items !! k) = None ->
  exists w1,
    getLocalStorage k fallback1 w = Return (Known fallback1) w1 /\
    getLocalStorage k fallback2 w1
    = Return (Known fallback2)
        (mkWorld (Exhausted items)
           (console w ++ [QuotaExceededError; QuotaExceededError])%list).
Proof.
  intros Hw Ht. destruct w as [st log]. simpl in Hw. subst st.
  eexists. split; [now apply getLocalStorage_falsy_exhausted|].
  rewrite getLocalStorage_falsy_exhausted by exact Ht. simpl.
  now rewrite <- app_assoc.
Qed.

Lemma exhausted_storage_never_seeds_witness :
  let w := mkWorld (Exhausted ∅) [] in
  localStorage w = Exhausted ∅ /\
  truthy ((∅ : gmap string string) !! "theme") = None /\
  exists w1,
    getLocalStorage "theme" (JSString "dark") w = Return (Known (JSString "dark")) w1 /\
    getLocalStorage "theme" (JSString "light") w1
    = Return (Known (JSString "light"))
        (mkWorld (Exhausted ∅)
           (console w ++ [QuotaExceededError; QuotaExceededError])%list).
Proof.
  split; [reflexivity|]. split; [reflexivity|].
  apply (exhausted_storage_never_seeds "theme" (JSString "dark") (JSString "light") _ ∅);
    reflexivity.
Defined.

(** X10. Reading a key with nothing truthy under it is writing the
    fallback: in every state of the storage the read leaves the world that
    [setLocalStorage] with the fallback leaves, and returns the fallback. *)
Theorem missing_key_read_is_a_write (k : string) (fallback : JSValue) (w : World) :
  truthy (stored w k) = None ->
  exists w', setLocalStorage k fallback w = Return tt w' /\
             getLocalStorage k fallback w = Return (Known fallback) w'.
Proof.
  intros Ht. storage_cases w.
  - eexists. split; reflexivity.
  - eexists. split; reflexivity.
  - rewrite getLocalStorage_falsy_exhausted by exact Ht. eexists. split; reflexivity.
  - rewrite getLocalStorage_falsy_available by exact Ht. eexists. split; reflexivity.
Qed.

Lemma missing_key_read_is_a_write_witness :
  let w := mkWorld (Available (<["theme" := EmptyString]> ∅)) [] in
  truthy (stored w "theme") = None /\
  exists w', setLocalStorage "theme" (JSNumber 7) w = Return tt w' /\
             getLocalStorage "theme" (JSNumber 7) w = Return (Known (JSNumber 7)) w'.
Proof.
  split; [reflexivity|].
  apply (missing_key_read_is_a_write "theme" (JSNumber 7)). reflexivity.
Defined.

(** What a read returns depends on the string under its key only. *)
Lemma returned_getLocalStorage key initialValue w :
  returned (getLocalStorage key initialValue w)
  = Some match truthy (stored w key) with
         | Some text =>
             match JSON_parse text with
             | Returns r => r
             | ThrowsSyntaxError => Known initialValue
             end
         | None => Known initialValue
         end.
Proof.
  destruct (truthy (stored w key)) as [text|] eqn:Ht.
  - rewrite (getLocalStorage_truthy _ _ _ _ Ht). now destruct (JSON_parse text).
  - storage_cases w; try reflexivity.
    + now rewrite getLocalStorage_falsy_exhausted by exact Ht.
    + now rewrite getLocalStorage_falsy_available by exact Ht.
Qed.

(** X11. Keys are independent: what a read of [k'] returns is the same
    after a write or a read under another key [k] as before it. *)
Theorem other_key_calls_change_no_read (k k' : string) (data fallback fallback' : JSValue)
    (w : World) :
  k' <> k ->
  returned (getLocalStorage k' fallback' (world_after (setLocalStorage k data w)))
  = returned (getLocalStorage k' fallback' w) /\
  returned (getLocalStorage k' fallback' (world_after (getLocalStorage k fallback w)))
  = returned (getLocalStorage k' fallback' w).
Proof.
  intros Hne. rewrite !returned_getLocalStorage. split.
  - destruct (stored_setLocalStorage k data w k' Hne) as (w' & Hs & Hst).
    rewrite Hs. simpl world_after. now rewrite Hst.
  - destruct (stored_getLocalStorage k fallback w k' Hne) as (r & w' & Hg & Hst).
    rewrite Hg. simpl world_after. now rewrite Hst.
Qed.

Lemma other_key_calls_change_no_read_witness :
  let w := mkWorld (Available (<["lang" := jsontext "'en'"]> ∅)) [] in
  "lang" <> "theme" /\
  returned (getLocalStorage "lang" JSNull
              (world_after (setLocalStorage "theme" (JSString "dark") w)))
  = returned (getLocalStorage "lang" JSNull w) /\
  returned (getLocalStorage "lang" JSNull
              (world_after (getLocalStorage "theme" (JSString "light") w)))
  = returned (getLocalStorage "lang" JSNull w).
Proof.
  split; [discriminate|].
  apply (other_key_calls_change_no_read "theme" "lang" (JSString "dark")
           (JSString "light") JSNull).
  discriminate.
Defined.

Lemma JSON_stringify_None v : JSON_stringify v = None <-> v = JSUndefined.
Proof. destruct v; simpl; split; intros H; try discriminate H; reflexivity. Qed.

End HelperFacts.

Module AnyArgumentFacts.
Import JSON LocalStorage StorageFacts HelperFacts AnyArgument.

(** ** The helpers on every argument *)

(** Unfolding of a helper of [AnyArgument] down to the operations of the
    host. *)
Ltac run_any :=
  unfold getLocalStorage, setLocalStorage, try_catch, bind, JSON_stringify_call,
    window_localStorage_getItem, window_localStorage_setItem,
    localStorage_is_undefined; simpl.

(** On a value of [JSValue] the helpers are the helpers of [LocalStorage]. *)
Lemma setLocalStorage_modelled key v w :
  setLocalStorage key (Modelled v) w = LocalStorage.setLocalStorage key v w.
Proof. destruct w as [[| |items|items] log]; reflexivity. Qed.

Lemma getLocalStorage_modelled key v w :
  exists r w',
    getLocalStorage key (Modelled v) w = Return r w' /\
    LocalStorage.getLocalStorage key v w = Return (read_of r) w'.
Proof.
  destruct w as [[| |items|items] log];
    try (eexists _, _; split; reflexivity);
    run_any; run_helper;
    (destruct (truthy (items !! key)) as [text|];
     [unfold JSON_parse_call; destruct (JSON_parse text) |]);
    eexists _, _; split; reflexivity.
Qed.

(** [setLocalStorage], state by state and outcome by outcome. *)
Lemma setLocalStorage_gives_available key data t items log :
  JSON_stringify data = Gives t ->
  setLocalStorage key data (mkWorld (Available items) log)
  = Return tt (mkWorld (Available (<[key := DOMString t]> items)) log).
Proof. intros H. run_any. now rewrite H. Qed.


(** A value on which [JSON.stringify] throws is not written: the TypeError
    is logged, in a storage with room and in one without. *)
Lemma setLocalStorage_throws key data w :
  JSON_stringify data = ThrowsTypeError ->
  unavailable (localStorage w) = false ->
  setLocalStorage key data w
  = Return tt (mkWorld (localStorage w) (console w ++ [TypeError])).
Proof.
  intros H Hu. destruct w as [[| |items|items] log]; try discriminate Hu;
    run_any; now rewrite H.
Qed.

(** [setLocalStorage] returns in every world, for every argument. *)
Lemma setLocalStorage_any_returns key data w :
  setLocalStorage key data w = Return tt (world_after (setLocalStorage key data w)).
Proof.
  destruct w as [[| |items|items] log]; try reflexivity;
    run_any; destruct (JSON_stringify data); reflexivity.
Qed.


(** A truthy [storedData] is parsed, whatever [initialValue] is. *)
Lemma getLocalStorage_any_truthy key initialValue w text :
  truthy (stored w key) = Some text ->
  getLocalStorage key initialValue w =
    match JSON_parse text with
    | Returns r => Return (Parsed r) w
    | ThrowsSyntaxError =>
        Return (Given initialValue)
          (mkWorld (localStorage w) (console w ++ [SyntaxError]))
    end.
Proof.
  storage_cases w; try discriminate;
    intros H; run_any; rewrite H;
    unfold JSON_parse_call; destruct (JSON_parse text); reflexivity.
Qed.

(** With nothing truthy under the key the read is a write of
    [initialValue], and [initialValue] is returned. *)
Lemma getLocalStorage_any_falsy key initialValue w :
  truthy (stored w key) = None ->
  getLocalStorage key initialValue w
  = Return (Given initialValue) (world_after (setLocalStorage key initialValue w)).
Proof.
  storage_cases w; try reflexivity;
    intros H; run_any; rewrite H;
    destruct (JSON_stringify initialValue); reflexivity.
Qed.

(** The string stored for a value that [JSON.stringify] does not throw on is
    never empty. *)
Lemma Gives_nonempty data t : JSON_stringify data = Gives t -> DOMString t <> EmptyString.
Proof.
  destruct data as [v| |]; simpl; intros H; try discriminate H;
    injection H as <-; [apply DOMString_nonempty | discriminate].
Qed.

Lemma truthy_Gives data t :
  JSON_stringify data = Gives t -> truthy (Some (DOMString t)) = Some (DOMString t).
Proof.
  intros H. apply truthy_Some. split; [reflexivity | now apply (Gives_nonempty data)].
Qed.

(** [JSON.stringify] returns [undefined] for [undefined], for a function
    and for a symbol, and for nothing else. *)
Lemma JSON_stringify_Gives_None data :
  JSON_stringify data = Gives None <-> data = Modelled JSUndefined \/ data = Textless.
Proof.
  destruct data as [v| |]; simpl; split.
  - intros H. injection H as H. apply JSON_stringify_None in H. subst v. now left.
  - intros [H|H]; [injection H as -> | discriminate H]. reflexivity.
  - now right.
  - reflexivity.
  - intros H; discriminate H.
  - intros [H|H]; discriminate H.
Qed.

(** The text [JSON.stringify] gives is a text [JSON.parse] accepts. *)
Lemma JSON_parse_accepts_Gives data text :
  JSON_stringify data = Gives (Some text) -> exists r, JSON_parse text = Returns r.
Proof.
  destruct data as [v| |]; simpl; intros H; try discriminate H.
  injection H as H. now apply (JSONFacts.JSON_parse_accepts_stringify v).
Qed.


(** ** The empty string *)

(** C9, as amended. A stored empty string counts as absent: rather than
    parsing it, [getLocalStorage] returns the fallback and does what
    [setLocalStorage] does with the fallback. The fallback is written under
    the key when that write succeeds, that is with the storage available
    and a fallback [JSON.stringify] does not throw on: the read then is
    the read of the storage without the key, and the string stored is the
    text of the fallback, which reads back as a serializable fallback. *)
Theorem empty_string_is_absent (k : string) (fallback : Argument) (w : World) :
  stored w k = Some EmptyString ->
  (exists w',
     getLocalStorage k fallback w = Return (Given fallback) w' /\
     setLocalStorage k fallback w = Return tt w') /\
  (forall items t,
     localStorage w = Available items ->
     JSON_stringify fallback = Gives t ->
     getLocalStorage k fallback w
     = Return (Given fallback)
         (mkWorld (Available (<[k := DOMString t]> items)) (console w)) /\
     getLocalStorage k fallback w
     = getLocalStorage k fallback (mkWorld (Available (delete k items)) (console w)) /\
     (forall v, fallback = Modelled v -> serializable v = true ->
                JSON_parse (DOMString t) = Returns (Known v))).
Proof.
  intros Hst.
  assert (Ht : truthy (stored w k) = None) by (now rewrite Hst).
  split.
  - eexists. split; [now apply getLocalStorage_any_falsy|].
    apply setLocalStorage_any_returns.
  - intros items t Hw Hg. destruct w as [st log]. simpl in Hw. subst st.
    rewrite (getLocalStorage_any_falsy _ _ _ Ht).
    rewrite (setLocalStorage_gives_available _ _ _ _ _ Hg). simpl.
    split; [reflexivity|]. split.
    + rewrite getLocalStorage_any_falsy
        by (unfold stored; simpl; now rewrite lookup_delete_eq).
      rewrite (setLocalStorage_gives_available _ _ _ _ _ Hg). simpl.
      now rewrite insert_delete_eq.
    + intros v -> Hs. simpl in Hg. injection Hg as <-.
      destruct (JSONFacts.JSON_parse_stringify v Hs) as (t & -> & _ & Hp). exact Hp.
Qed.

Lemma empty_string_is_absent_witness :
  let items : gmap string string := <["theme" := EmptyString]> ∅ in
  let w := mkWorld (Available items) [] in
  let fallback := Modelled (JSBoolean true) in
  stored w "theme" = Some EmptyString /\
  (exists w',
     getLocalStorage "theme" fallback w = Return (Given fallback) w' /\
     setLocalStorage "theme" fallback w = Return tt w') /\
  (forall items' t,
     localStorage w = Available items' ->
     JSON_stringify fallback = Gives t ->
     getLocalStorage "theme" fallback w
     = Return (Given fallback)
         (mkWorld (Available (<["theme" := DOMString t]> items')) (console w)) /\
     getLocalStorage "theme" fallback w
     = getLocalStorage "theme" fallback
         (mkWorld (Available (delete "theme" items')) (console w)) /\
     (forall v, fallback = Modelled v -> serializable v = true ->
                JSON_parse (DOMString t) = Returns (Known v))).
Proof.
  split; [reflexivity|].
  apply (empty_string_is_absent "theme" (Modelled (JSBoolean true))). reflexivity.
Defined.

(** C9 as stated fails when the quota is used up: the empty string is
    ignored and the fallback returned, but nothing is written under the
    key, where the empty string stays. *)
Lemma empty_string_stays_when_exhausted :
  let w := mkWorld (Exhausted (<["theme" := EmptyString]> ∅)) [] in
  let fallback := Modelled (JSBoolean true) in
  stored w "theme" = Some EmptyString /\
  JSON_stringify fallback = Gives (Some "true") /\
  getLocalStorage "theme" fallback w
  = Return (Given fallback) (mkWorld (localStorage w) [QuotaExceededError]) /\
  stored (world_after (getLocalStorage "theme" fallback w)) "theme" = Some EmptyString /\
  stored (world_after (getLocalStorage "theme" fallback w)) "theme" <> Some "true".
Proof.
  split; [reflexivity|]. split; [reflexivity|]. split; [reflexivity|].
  split; [reflexivity | discriminate].
Qed.

(** The same happens, with the storage available, for a fallback on which
    [JSON.stringify] throws. *)
Lemma empty_string_stays_when_unserializable :
  let w := mkWorld (Available (<["theme" := EmptyString]> ∅)) [] in
  getLocalStorage "theme" Unserializable w
  = Return (Given Unserializable) (mkWorld (localStorage w) [TypeError]).
Proof. reflexivity. Qed.

(** ** Writes and the reads after them *)


(** A BigInt written after the theme leaves the theme. *)
Lemma unserializable_write_is_dropped :
  let w := mkWorld (Available ∅) [] in
  world_after
    ((setLocalStorage "theme" (Modelled (JSString "dark")) ;;
      setLocalStorage "theme" Unserializable) w)
  = mkWorld (Available (<["theme" := jsontext "'dark'"]> ∅)) [TypeError].
Proof. reflexivity. Qed.

(** X5. With the storage available, whatever is written that
    [JSON.stringify] does not throw on, a read after the write finds a
    string that is not empty: it parses it, never seeds, and leaves the
    storage as the write left it. What it returns is what [JSON.parse]
    makes of the text, or the fallback when the text does not parse. *)
Theorem read_after_any_write (k : string) (data fallback : Argument) (w : World)
    (items : gmap string string) (t : option string) :
  localStorage w = Available items ->
  JSON_stringify data = Gives t ->
  exists w1 r w2,
    setLocalStorage k data w = Return tt w1 /\
    stored w1 k = Some (DOMString t) /\
    DOMString t <> EmptyString /\
    getLocalStorage k fallback w1 = Return r w2 /\
    localStorage w2 = localStorage w1 /\
    match JSON_parse (DOMString t) with
    | Returns r' => r = Parsed r' /\ w2 = w1
    | ThrowsSyntaxError => r = Given fallback
    end.
Proof.
  intros Hw Hg. destruct w as [st log]. simpl in Hw. subst st.
  set (w1 := mkWorld (Available (<[k := DOMString t]> items)) log).
  assert (Hst : stored w1 k = Some (DOMString t))
    by (unfold stored, w1; simpl; apply lookup_insert_eq).
  assert (Ht : truthy (stored w1 k) = Some (DOMString t))
    by (rewrite Hst; now apply (truthy_Gives data)).
  pose proof (getLocalStorage_any_truthy k fallback w1 _ Ht) as Hget.
  destruct (JSON_parse (DOMString t)) as [r'|].
  - exists w1, (Parsed r'), w1.
    split; [now apply setLocalStorage_gives_available|].
    split; [exact Hst|]. split; [now apply (Gives_nonempty data)|].
    split; [exact Hget|]. repeat split.
  - eexists w1, _, _.
    split; [now apply setLocalStorage_gives_available|].
    split; [exact Hst|]. split; [now apply (Gives_nonempty data)|].
    split; [exact Hget|]. split; reflexivity.
Qed.

Lemma read_after_any_write_witness :
  let w := mkWorld (Available ∅) [] in
  let data := Modelled (JSArray [JSUndefined]) in
  let fallback := Modelled (JSString "light") in
  localStorage w = Available ∅ /\
  JSON_stringify data = Gives (Some "[null]") /\
  exists w1 r w2,
    setLocalStorage "theme" data w = Return tt w1 /\
    stored w1 "theme" = Some (DOMString (Some "[null]")) /\
    DOMString (Some "[null]") <> EmptyString /\
    getLocalStorage "theme" fallback w1 = Return r w2 /\
    localStorage w2 = localStorage w1 /\
    match JSON_parse (DOMString (Some "[null]")) with
    | Returns r' => r = Parsed r' /\ w2 = w1
    | ThrowsSyntaxError => r = Given fallback
    end.
Proof.
  split; [reflexivity|]. split; [reflexivity|].
  apply (read_after_any_write "theme" (Modelled (JSArray [JSUndefined]))
           (Modelled (JSString "light")) _ ∅ (Some "[null]"));
    reflexivity.
Defined.



(** After a first read with a fallback on which [JSON.stringify] throws,
    the key is still without a value, and the second read seeds it. *)
Lemma second_read_after_unserializable :
  let w := mkWorld (Available ∅) [] in
  let w1 := world_after (getLocalStorage "theme" Unserializable w) in
  w1 = mkWorld (Available ∅) [TypeError] /\
  world_after (getLocalStorage "theme" (Modelled (JSString "light")) w1)
  = mkWorld (Available (<["theme" := jsontext "'light'"]> ∅)) [TypeError].
Proof. split; reflexivity. Qed.

(** X12. With the storage available and a value [JSON.stringify] does not
    throw on, the helper corrupts its own storage for the values without a
    text and for no other: for [undefined], a function or a symbol the
    string [undefined] is stored, and the read after the write logs a
    SyntaxError and returns the fallback; the text written for any other
    value parses, so the read after the write returns what [JSON.parse]
    gives and logs nothing. *)
Theorem only_textless_is_read_as_corrupted (k : string) (data fallback : Argument)
    (w : World) (items : gmap string string) (t : option string) :
  localStorage w = Available items ->
  JSON_stringify data = Gives t ->
  exists w1 r w2,
    setLocalStorage k data w = Return tt w1 /\
    getLocalStorage k fallback w1 = Return r w2 /\
    ((data = Modelled JSUndefined \/ data = Textless) /\
       stored w1 k = Some "undefined" /\
       r = Given fallback /\
       w2 = mkWorld (localStorage w1) (console w1 ++ [SyntaxError])%list \/
     exists text r',
       t = Some text /\ stored w1 k = Some text /\
       JSON_parse text = Returns r' /\ r = Parsed r' /\ w2 = w1).
Proof.
  intros Hw Hg. destruct w as [st log]. simpl in Hw. subst st.
  set (w1 := mkWorld (Available (<[k := DOMString t]> items)) log).
  assert (Hst : stored w1 k = Some (DOMString t))
    by (unfold stored, w1; simpl; apply lookup_insert_eq).
  assert (Ht : truthy (stored w1 k) = Some (DOMString t))
    by (rewrite Hst; now apply (truthy_Gives data)).
  pose proof (getLocalStorage_any_truthy k fallback w1 _ Ht) as Hget.
  destruct t as [text|].
  - destruct (JSON_parse_accepts_Gives data text Hg) as [r' Hr].
    simpl DOMString in *. rewrite Hr in Hget.
    exists w1, (Parsed r'), w1.
    split; [now apply (setLocalStorage_gives_available k data (Some text))|].
    split; [exact Hget|]. right. exists text, r'. repeat split; assumption.
  - simpl DOMString in *.
    change (JSON_parse "undefined") with ThrowsSyntaxError in Hget.
    eexists w1, _, _.
    split; [now apply (setLocalStorage_gives_available k data None)|].
    split; [exact Hget|]. left.
    split; [now apply JSON_stringify_Gives_None|]. repeat split. exact Hst.
Qed.

Lemma only_textless_is_read_as_corrupted_witness :
  let w := mkWorld (Available ∅) [] in
  let data := Modelled (JSObject [("a", JSUndefined); ("n", JSArray [JSNumber 3; JSUndefined])]) in
  let text := jsontext "{'n':[3,null]}" in
  localStorage w = Available ∅ /\
  JSON_stringify data = Gives (Some text) /\
  exists w1 r w2,
    setLocalStorage "theme" data w = Return tt w1 /\
    getLocalStorage "theme" Textless w1 = Return r w2 /\
    ((data = Modelled JSUndefined \/ data = Textless) /\
       stored w1 "theme" = Some "undefined" /\
       r = Given Textless /\
       w2 = mkWorld (localStorage w1) (console w1 ++ [SyntaxError])%list \/
     exists text' r',
       Some text = Some text' /\ stored w1 "theme" = Some text' /\
       JSON_parse text' = Returns r' /\ r = Parsed r' /\ w2 = w1).
Proof.
  split; [reflexivity|]. split; [reflexivity|].
  apply (only_textless_is_read_as_corrupted "theme"
           (Modelled (JSObject [("a", JSUndefined); ("n", JSArray [JSNumber 3; JSUndefined])]))
           Textless _ ∅ (Some (jsontext "{'n':[3,null]}")));
    reflexivity.
Defined.

End AnyArgumentFacts.
